(** * Branch-and-cut shortest path: the notebook [tsp_Project.ipynb]

    A shallow embedding of the three classes of the notebook,
    [TSPIntance], [TSPSolution] and [BranchAndCutIntegerSolver], and the
    properties of them that the design document states.

    Conventions of the embedding.
    - A Python [int] is a [Z]; a Python [float] is a rational [Q] (only
      addition and the comparison with [0.5] are ever applied to one).
    - A value that is an [int] or [None] is an [option Z].
    - A [dict] keyed by arcs is a [gmap (Z * Z)]; a [set] of vertices is a
      [gset Z].
    - An operation that can raise returns a [result]; a [while] loop takes
      a bound on its number of iterations and returns [None] when the bound
      is exhausted before the loop exits. *)

From Stdlib Require Import ZArith QArith List Lia Bool.
From stdpp Require Import base gmap sets list.

Open Scope Z_scope.

(** ** Exceptions *)

Inductive exn : Set :=
| AssertionError
| IndexError
| KeyError
| TypeError
| RuntimeError
| GurobiError
| AttributeError.

Inductive result (A : Type) : Type :=
| Ok (a : A)
| Raise (e : exn).
Arguments Ok {A} a.
Arguments Raise {A} e.

#[global] Instance result_ret : MRet result := @Ok.
#[global] Instance result_bind : MBind result := fun A B f r =>
  match r with
  | Ok a => f a
  | Raise e => Raise e
  end.

(** A [for] loop whose body can raise: the accumulator is threaded through
    the elements in order and the first exception ends the loop. *)
Fixpoint for_each {A B : Type} (body : A -> B -> result A) (acc : A) (l : list B)
  : result A :=
  match l with
  | [] => Ok acc
  | b :: l' =>
      match body acc b with
      | Ok acc' => for_each body acc' l'
      | Raise e => Raise e
      end
  end.

(** ** Basic types: [Vertex = int], [Arc = Tuple[Vertex, Vertex]],
    [Tour = List[Vertex]] *)

Abbreviation Vertex := Z (only parsing).
Abbreviation Arc := (Z * Z)%type (only parsing).

(** A vertex or [None]: the values [__next_vertex] returns and
    [__tour_starting_at] appends. *)
Abbreviation OptVertex := (option Z) (only parsing).
Abbreviation Tour := (list (option Z)) (only parsing).

(** [range(lo, hi)] *)
Definition range (lo hi : Z) : list Z := seqZ lo (hi - lo).

(** [l[k]] on a Python list: a negative index counts from the end, an index
    out of range raises [IndexError]. *)
Definition getitem {A : Type} (l : list A) (k : Z) : result A :=
  let len := Z.of_nat (length l) in
  let k' := if k <? 0 then k + len else k in
  if k' <? 0 then Raise IndexError
  else match l !! Z.to_nat k' with
       | Some a => Ok a
       | None => Raise IndexError
       end.

(** [d[k]] on a dict: a missing key raises [KeyError]. *)
Definition dict_get {V : Type} (d : gmap Arc V) (k : Arc) : result V :=
  match d !! k with
  | Some v => Ok v
  | None => Raise KeyError
  end.

(** ** [class TSPIntance]

    The fields [n], [x], [y], [cost] carry the prefix [tsp_]. *)

Record TSPIntance : Type := {
  tsp_n : Z;
  tsp_x : list Q;
  tsp_y : list Q;
  tsp_cost : gmap Arc Q
}.

(** [vertices(self)]: [range(self.n)] *)
Definition vertices (n : Z) : list Vertex := range 0 n.

(** [arcs(self)]: the keys of [self.cost] *)
Definition arcs (tsp : TSPIntance) : gset Arc := dom (tsp_cost tsp).

(** The body of the inner loop of [__init__]:
    [if i != j: self.cost[(i, j)] = costs[cost_index]; cost_index += 1] *)
Definition init_body (costs : list Q) (i : Z)
    (st : gmap Arc Q * Z) (j : Z) : result (gmap Arc Q * Z) :=
  let '(cost, cost_index) := st in
  if i =? j then Ok (cost, cost_index)
  else
    c ← getitem costs cost_index;
    Ok (<[(i, j) := c]> cost, cost_index + 1).

(** [TSPIntance.__init__(self, x, y, costs)] *)
Definition TSPIntance_init (x y costs : list Q) : result TSPIntance :=
  if negb (length x =? length y)%nat then Raise AssertionError
  else
    let n := Z.of_nat (length x) in
    '(cost, _) ← for_each
        (fun st i => for_each (init_body costs i) st (vertices n))
        (∅, 0) (vertices n);
    Ok {| tsp_n := n; tsp_x := x; tsp_y := y; tsp_cost := cost |}.

(** An instance as [__init__] leaves it: a cost for every ordered pair of
    distinct vertices and for nothing else. *)
Definition inst_wf (tsp : TSPIntance) : Prop :=
  forall i j : Z,
    is_Some (tsp_cost tsp !! (i, j)) <->
    0 <= i < tsp_n tsp /\ 0 <= j < tsp_n tsp /\ i <> j.

(** ** [class TSPSolution]

    The fields [tour], [cost] carry the prefix [sol_]. *)

Record TSPSolution : Type := {
  sol_tour : Tour;
  sol_cost : Q
}.

(** The keyword arguments of [TSPSolution.__init__]: [Some] when the key is
    in [kwargs]. *)
Record Kwargs : Type := {
  kw_cost : option Q;
  kw_instance : option TSPIntance
}.

(** [tsp.cost[i, j]] for elements [i], [j] of a tour: a pair with [None] in
    it is no key of the dict. *)
Definition cost_at (tsp : TSPIntance) (i j : OptVertex) : result Q :=
  match i, j with
  | Some i', Some j' => dict_get (tsp_cost tsp) (i', j')
  | _, _ => Raise KeyError
  end.

(** [tour[:-1]] and [tour[1:]] *)
Definition but_last {A : Type} (l : list A) : list A := removelast l.
Definition but_first {A : Type} (l : list A) : list A := tail l.

(** [sum(tsp.cost[i, j] for i in tour[:-1] for j in tour[1:])]: the generator
    runs the inner [for] in full for every [i]; [sum] starts from [0] and adds
    the terms in the order they are produced. *)
Definition derived_cost (tsp : TSPIntance) (tour : Tour) : result Q :=
  for_each
    (fun acc i =>
       for_each (fun acc' j => c ← cost_at tsp i j; Ok (acc' + c)%Q)
                acc (but_first tour))
    0%Q (but_last tour).

(** [TSPSolution.__init__(self, tour, **kwargs)] *)
Definition TSPSolution_init (tour : Tour) (kwargs : Kwargs) : result TSPSolution :=
  match kw_cost kwargs, kw_instance kwargs with
  | None, None => Raise AssertionError
  | Some c, _ => Ok {| sol_tour := tour; sol_cost := c |}
  | None, Some tsp =>
      c ← derived_cost tsp tour;
      Ok {| sol_tour := tour; sol_cost := c |}
  end.

(** The cost of a tour as the design document words it: the sum of
    [cost(tour[k], tour[k+1])] over the consecutive pairs. *)
Fixpoint consecutive_cost (tsp : TSPIntance) (tour : Tour) : result Q :=
  match tour with
  | i :: ((j :: _) as rest) =>
      c ← cost_at tsp i j;
      r ← consecutive_cost tsp rest;
      Ok (c + r)%Q
  | _ => Ok 0%Q
  end.

(** ** The integer-programming engine (gurobipy), as far as the notebook
    uses it

    A variable of the model is named by the arc it was created for.  A
    linear expression is a list of variables, each with coefficient one, plus
    a constant. *)

Inductive VType : Set := BINARY | CONTINUOUS | INTEGER.

Record Var : Type := {
  var_obj : Q;
  var_vtype : VType
}.

Record LinExpr : Type := {
  le_vars : list Arc;
  le_const : Z
}.

Inductive Sense : Set := EQUAL | LESS_EQUAL.

Record TempConstr : Type := {
  lhs : LinExpr;
  sense : Sense;
  rhs : LinExpr
}.

(** [GRB.OPTIMAL], [GRB.Callback.MIPSOL], [GRB.MINIMIZE] *)
Definition GRB_OPTIMAL : Z := 2.
Definition GRB_Callback_MIPSOL : Z := 4.
Definition GRB_MINIMIZE : Z := 1.

(** The state of a [Model]: what the notebook puts into it (variables,
    constraints, lazy constraints, the [LazyConstraints] parameter) and what
    it reads from it (the callback code [where] while a callback runs, the
    values of the candidate solution there, and after [optimize] the status,
    the objective value, the number [SolCount] of solutions it holds and the
    values [X] of the best of them). *)
Record Model : Type := {
  m_vars : gmap Arc Var;
  m_sense : Z;
  m_constrs : list TempConstr;
  m_lazy : list TempConstr;
  m_LazyConstraints : Z;
  m_where : option Z;
  m_cbSolution : Arc -> Q;
  m_X : Arc -> Q;
  m_SolCount : Z;
  m_Status : Z;
  m_ObjVal : Q
}.

(** [Model()]: an empty minimisation model, status [LOADED], holding no
    solution. *)
Definition Model_new : Model :=
  {| m_vars := ∅; m_sense := GRB_MINIMIZE; m_constrs := []; m_lazy := [];
     m_LazyConstraints := 0; m_where := None;
     m_cbSolution := fun _ => 0%Q; m_X := fun _ => 0%Q; m_SolCount := 0;
     m_Status := 1; m_ObjVal := 0%Q |}.

(** [m.addVars(keys, obj=costs, vtype=vt)]: one variable per key, its
    objective coefficient the entry of the dict [costs] at the key (the
    notebook passes the keys of [costs] itself); the result is the
    [tupledict] of the new variables, here its set of keys. *)
Definition addVars (m : Model) (keys : gset Arc) (costs : gmap Arc Q) (vt : VType)
  : gset Arc * Model :=
  (keys,
   {| m_vars := (fun c => {| var_obj := c; var_vtype := vt |})
                  <$> filter (fun kc => kc.1 ∈ keys) costs;
      m_sense := m_sense m; m_constrs := m_constrs m; m_lazy := m_lazy m;
      m_LazyConstraints := m_LazyConstraints m; m_where := m_where m;
      m_cbSolution := m_cbSolution m; m_X := m_X m;
      m_SolCount := m_SolCount m;
      m_Status := m_Status m; m_ObjVal := m_ObjVal m |}).

(** [m.addConstrs(cs)]; [m.addConstr(c)] is the case of one constraint. *)
Definition addConstrs (m : Model) (cs : list TempConstr) : Model :=
  {| m_vars := m_vars m; m_sense := m_sense m;
     m_constrs := m_constrs m ++ cs; m_lazy := m_lazy m;
     m_LazyConstraints := m_LazyConstraints m; m_where := m_where m;
     m_cbSolution := m_cbSolution m; m_X := m_X m;
     m_SolCount := m_SolCount m;
     m_Status := m_Status m; m_ObjVal := m_ObjVal m |}.

Definition addConstr (m : Model) (c : TempConstr) : Model := addConstrs m [c].

(** [m.cbLazy(c)] *)
Definition cbLazy (m : Model) (c : TempConstr) : Model :=
  {| m_vars := m_vars m; m_sense := m_sense m;
     m_constrs := m_constrs m; m_lazy := m_lazy m ++ [c];
     m_LazyConstraints := m_LazyConstraints m; m_where := m_where m;
     m_cbSolution := m_cbSolution m; m_X := m_X m;
     m_SolCount := m_SolCount m;
     m_Status := m_Status m; m_ObjVal := m_ObjVal m |}.

(** [m.setParam(GRB.Param.LazyConstraints, v)] *)
Definition setParam_LazyConstraints (m : Model) (v : Z) : Model :=
  {| m_vars := m_vars m; m_sense := m_sense m;
     m_constrs := m_constrs m; m_lazy := m_lazy m;
     m_LazyConstraints := v; m_where := m_where m;
     m_cbSolution := m_cbSolution m; m_X := m_X m;
     m_SolCount := m_SolCount m;
     m_Status := m_Status m; m_ObjVal := m_ObjVal m |}.

(** [m.cbGetSolution(v)] is valid in a callback called with [MIPSOL] and
    raises [GurobiError] anywhere else. *)
Definition cbGetSolution (m : Model) (v : Arc) : result Q :=
  match m_where m with
  | Some w => if w =? GRB_Callback_MIPSOL then Ok (m_cbSolution m v)
              else Raise GurobiError
  | None => Raise GurobiError
  end.

(** [v.X], the value of the variable [v] in the solution the model holds.
    The attribute can be read once [optimize] is over and has left a
    solution: whenever the status is [OPTIMAL], and at another status when
    no callback runs and [SolCount] is positive.  On a model not yet
    optimised, on one left without solution and while a callback runs (the
    status is not [OPTIMAL] then), the access raises [AttributeError]. *)
Definition X_available (m : Model) : bool :=
  (m_Status m =? GRB_OPTIMAL)
  || match m_where m with
     | None => 0 <? m_SolCount m
     | Some _ => false
     end.

Definition Var_X (m : Model) (v : Arc) : result Q :=
  if X_available m then Ok (m_X m v) else Raise AttributeError.

(** A key pattern of [tupledict.sum]: a value or the wildcard ['*']. *)
Inductive Pat : Set := Wild | Is (v : Z).

Definition pat_match (p : Pat) (v : Z) : bool :=
  match p with
  | Wild => true
  | Is u => u =? v
  end.

(** [x.sum(p, q)]: the sum of the variables whose key matches the pattern. *)
Definition tupledict_sum (x : gset Arc) (p q : Pat) : LinExpr :=
  {| le_vars :=
       elements (filter (fun a : Arc => pat_match p a.1 && pat_match q a.2 = true) x);
     le_const := 0 |}.

(** A number where a linear expression is expected. *)
Definition num (c : Z) : LinExpr := {| le_vars := []; le_const := c |}.

(** The engine's search: [m.optimize(callback)] runs the callback, which
    may change the model, at points of its choosing, and either leaves the
    model in its final state or raises. *)
Definition Callback : Type := Z -> Model -> option (result unit * Model).
Definition Optimizer : Type := Model -> Callback -> result Model.

(** ** [class BranchAndCutIntegerSolver]

    The fields [tsp], [m], [x] carry the prefix [self_]; [self_x], the
    [tupledict] of the variables, is its set of keys. *)

Record BranchAndCutIntegerSolver : Type := {
  self_tsp : TSPIntance;
  self_m : Model;
  self_x : gset Arc
}.

Definition with_m (self : BranchAndCutIntegerSolver) (m : Model)
  : BranchAndCutIntegerSolver :=
  {| self_tsp := self_tsp self; self_m := m; self_x := self_x self |}.

(** [__build_model(self)]: the six [addConstr]/[addConstrs] calls in the
    order of the source. *)
Definition build_model (self : BranchAndCutIntegerSolver)
  : BranchAndCutIntegerSolver :=
  let n := tsp_n (self_tsp self) in
  let x := self_x self in
  let c_eq (l r : LinExpr) := {| lhs := l; sense := EQUAL; rhs := r |} in
  let c_le (l r : LinExpr) := {| lhs := l; sense := LESS_EQUAL; rhs := r |} in
  let m := self_m self in
  let m := addConstr m (c_eq (tupledict_sum x (Is 0) Wild) (num 1)) in
  let m := addConstr m (c_eq (tupledict_sum x Wild (Is (n - 1))) (num 1)) in
  let m := addConstrs m
             ((fun i => c_eq (tupledict_sum x (Is i) Wild)
                             (tupledict_sum x Wild (Is i)))
                <$> range 1 (n - 1)) in
  let m := addConstr m (c_eq (tupledict_sum x (Is (n - 1)) Wild) (num 0)) in
  let m := addConstr m (c_eq (tupledict_sum x Wild (Is 0)) (num 0)) in
  let m := addConstrs m
             ((fun i => c_le (tupledict_sum x (Is i) Wild) (num 1))
                <$> vertices n) in
  with_m self m.

(** [BranchAndCutIntegerSolver.__init__(self, tsp)] *)
Definition BranchAndCutIntegerSolver_init (tsp : TSPIntance)
  : BranchAndCutIntegerSolver :=
  let '(x, m) := addVars Model_new (arcs tsp) (tsp_cost tsp) BINARY in
  build_model {| self_tsp := tsp; self_m := m; self_x := x |}.

(** [self.x[i, j]]: the variable at the key, [KeyError] when the pair is no
    key (in particular when a component is [None]). *)
Definition x_at (self : BranchAndCutIntegerSolver) (i j : OptVertex) : result Arc :=
  match i, j with
  | Some i', Some j' =>
      if bool_decide ((i', j') ∈ self_x self) then Ok (i', j') else Raise KeyError
  | _, _ => Raise KeyError
  end.

(** The [try]/[except GurobiError] of [__next_vertex]: the value from
    [cbGetSolution] in a callback, from the attribute [X] otherwise; what
    reading [X] raises is not caught. *)
Definition value_of (self : BranchAndCutIntegerSolver) (v : Arc) : result Q :=
  match cbGetSolution (self_m self) v with
  | Ok q => Ok q
  | Raise GurobiError => Var_X (self_m self) v
  | Raise e => Raise e
  end.

(** [x > 0.5] *)
Definition gt_half (q : Q) : bool := negb (Qle_bool q (1 # 2)).

(** The [for j in self.tsp.vertices()] loop of [__next_vertex], from the
    vertices [js] still to scan. *)
Fixpoint next_vertex_from (self : BranchAndCutIntegerSolver) (i : OptVertex)
    (js : list Z) : result OptVertex :=
  match js with
  | [] => Ok None
  | j :: js' =>
      if bool_decide (Some j = i) then next_vertex_from self i js'
      else
        v ← x_at self i (Some j);
        xv ← value_of self v;
        if gt_half xv then Ok (Some j) else next_vertex_from self i js'
  end.

(** [__next_vertex(self, i)] *)
Definition next_vertex (self : BranchAndCutIntegerSolver) (i : OptVertex)
  : result OptVertex :=
  next_vertex_from self i (vertices (tsp_n (self_tsp self))).

(** The [while current != i] loop of [__tour_starting_at]; [fuel] bounds the
    number of times its body runs. *)
Fixpoint tour_loop (fuel : nat) (self : BranchAndCutIntegerSolver) (i : Z)
    (tour : Tour) (current : OptVertex) : option (result Tour) :=
  if bool_decide (current = Some i) then Some (Ok tour)
  else
    match fuel with
    | O => None
    | S fuel' =>
        let tour := tour ++ [current] in
        if bool_decide (current = Some (tsp_n (self_tsp self) - 1))
        then Some (Ok tour)
        else
          match next_vertex self current with
          | Raise e => Some (Raise e)
          | Ok current' => tour_loop fuel' self i tour current'
          end
    end.

(** [__tour_starting_at(self, i)] *)
Definition tour_starting_at (fuel : nat) (self : BranchAndCutIntegerSolver)
    (i : Z) : option (result Tour) :=
  let tour := [Some i] in
  match next_vertex self (Some i) with
  | Raise e => Some (Raise e)
  | Ok None => Some (Ok tour)
  | Ok current => tour_loop fuel self i tour current
  end.

(** [for i, j in subtour]: unpacking an element of the tour, an [int] or
    [None], into two targets raises [TypeError]. *)
Definition unpack_pair (e : OptVertex) : result (OptVertex * OptVertex) :=
  match e with
  | Some _ => Raise TypeError
  | None => Raise TypeError
  end.

(** The value of [sum(...)]: the [int] zero it starts from, or a linear
    expression once a variable has been added. *)
Inductive SumVal : Type :=
| SumInt (z : Z)
| SumLin (e : LinExpr).

Definition sum_add (acc : SumVal) (v : Arc) : SumVal :=
  match acc with
  | SumInt z => SumLin {| le_vars := [v]; le_const := z |}
  | SumLin e => SumLin {| le_vars := le_vars e ++ [v]; le_const := le_const e |}
  end.

(** [__add_sec_for(self, subtour)] (the [print] left out).  With no variable
    in the sum the comparison is one of two [int]s, a [bool], which [cbLazy]
    does not take. *)
Definition add_sec_for (self : BranchAndCutIntegerSolver) (subtour : Tour)
  : result unit * BranchAndCutIntegerSolver :=
  let total :=
    for_each (fun acc e =>
                '(i, j) ← unpack_pair e;
                v ← x_at self i j;
                Ok (sum_add acc v))
             (SumInt 0) subtour in
  match total with
  | Raise e => (Raise e, self)
  | Ok (SumInt _) => (Raise GurobiError, self)
  | Ok (SumLin e) =>
      let c := {| lhs := e; sense := LESS_EQUAL;
                  rhs := num (Z.of_nat (length subtour) - 1) |} in
      (Ok tt, with_m self (cbLazy (self_m self) c))
  end.

(** The test [subtour == [start] or subtour[-1] == self.tsp.n-1 or
    len(subtour) < 2] of [__find_subtours]. *)
Definition stops_scan (self : BranchAndCutIntegerSolver) (start : Z)
    (subtour : Tour) : result bool :=
  if bool_decide (subtour = [Some start]) then Ok true
  else
    final ← getitem subtour (-1);
    if bool_decide (final = Some (tsp_n (self_tsp self) - 1)) then Ok true
    else Ok (Z.of_nat (length subtour) <? 2).

(** [set(subtour)] *)
Definition set_of (subtour : Tour) : gset Z := list_to_set (omap id subtour).

(** The [while len(remaining) > 0] loop of [__find_subtours].  [pick] is
    [next(iter(remaining))], the element the set's iterator yields first;
    [fuel] bounds the runs of the body, [walk_fuel] those of each walk. *)
Fixpoint find_subtours_loop (pick : gset Z -> Z) (walk_fuel fuel : nat)
    (self : BranchAndCutIntegerSolver) (remaining : gset Z)
  : option (result unit * BranchAndCutIntegerSolver) :=
  if (0 <? size remaining)%nat then
    match fuel with
    | O => None
    | S fuel' =>
        let start := pick remaining in
        match tour_starting_at walk_fuel self start with
        | None => None
        | Some (Raise e) => Some (Raise e, self)
        | Some (Ok subtour) =>
            match stops_scan self start subtour with
            | Raise e => Some (Raise e, self)
            | Ok true => Some (Ok tt, self)
            | Ok false =>
                match add_sec_for self subtour with
                | (Raise e, self') => Some (Raise e, self')
                | (Ok _, self') =>
                    find_subtours_loop pick walk_fuel fuel' self'
                                       (remaining ∖ set_of subtour)
                end
            end
        end
    end
  else Some (Ok tt, self).

(** [__find_subtours(self, where)] *)
Definition find_subtours (pick : gset Z -> Z) (fuel : nat)
    (self : BranchAndCutIntegerSolver) (where_ : Z)
  : option (result unit * BranchAndCutIntegerSolver) :=
  if negb (where_ =? GRB_Callback_MIPSOL) then Some (Ok tt, self)
  else
    let remaining : gset Z := list_to_set (vertices (tsp_n (self_tsp self))) in
    find_subtours_loop pick fuel fuel self remaining.

(** The callback [solve] hands to [optimize]:
    [lambda _, where: self.__find_subtours(where=where)], run on the model as
    the engine presents it. *)
Definition solve_callback (pick : gset Z -> Z) (fuel : nat)
    (self : BranchAndCutIntegerSolver) : Callback :=
  fun where_ m =>
    match find_subtours pick fuel (with_m self m) where_ with
    | Some (r, self') => Some (r, self_m self')
    | None => None
    end.

(** [solve(self)] *)
Definition solve (optimize : Optimizer) (pick : gset Z -> Z) (fuel : nat)
    (self : BranchAndCutIntegerSolver)
  : option (result TSPSolution * BranchAndCutIntegerSolver) :=
  let self := with_m self (setParam_LazyConstraints (self_m self) 1) in
  match optimize (self_m self) (solve_callback pick fuel self) with
  | Raise e => Some (Raise e, self)
  | Ok m =>
      let self := with_m self m in
      if negb (m_Status (self_m self) =? GRB_OPTIMAL)
      then Some (Raise RuntimeError, self)
      else
        match tour_starting_at fuel self 0 with
        | None => None
        | Some (Raise e) => Some (Raise e, self)
        | Some (Ok tour) =>
            Some (TSPSolution_init tour
                    {| kw_cost := Some (m_ObjVal (self_m self));
                       kw_instance := None |},
                  self)
        end
  end.

(** ** Concrete engine states and inputs, for the examples

    [at_mipsol m sol] is the model as a callback called with [MIPSOL] sees
    it, the candidate solution being [sol]; [finished m st obj xs] the model
    after [optimize] has returned with the status [st], holding one solution
    when the status is [OPTIMAL] and none otherwise. *)

Definition at_mipsol (m : Model) (sol : Arc -> Q) : Model :=
  {| m_vars := m_vars m; m_sense := m_sense m;
     m_constrs := m_constrs m; m_lazy := m_lazy m;
     m_LazyConstraints := m_LazyConstraints m;
     m_where := Some GRB_Callback_MIPSOL;
     m_cbSolution := sol; m_X := m_X m;
     m_SolCount := m_SolCount m;
     m_Status := m_Status m; m_ObjVal := m_ObjVal m |}.

Definition finished (m : Model) (st : Z) (obj : Q) (xs : Arc -> Q) : Model :=
  {| m_vars := m_vars m; m_sense := m_sense m;
     m_constrs := m_constrs m; m_lazy := m_lazy m;
     m_LazyConstraints := m_LazyConstraints m;
     m_where := None;
     m_cbSolution := m_cbSolution m; m_X := xs;
     m_SolCount := if st =? GRB_OPTIMAL then 1 else 0;
     m_Status := st; m_ObjVal := obj |}.

(** The snapshot that gives [1.0] to the listed arcs and [0.0] to the
    others. *)
Definition snapshot_of (sel : list Arc) : Arc -> Q :=
  fun a => if bool_decide (a ∈ sel) then 1%Q else 0%Q.

(** The iteration order of a CPython [set] of small non-negative [int]s:
    the least element comes first. *)
Definition pick_min (s : gset Z) : Z :=
  match elements s with
  | [] => 0
  | a :: l => foldr Z.min a l
  end.

(** The instance of the notebook's run in shape: three vertices, and the
    costs [1.0 .. 6.0] for the arcs in the order [__init__] numbers them. *)
Definition costs3 : list Q := [1; 2; 3; 4; 5; 6]%Q.
Definition coords3 : list Q := [0; 0; 0]%Q.

Definition tsp3 : TSPIntance :=
  {| tsp_n := 3; tsp_x := coords3; tsp_y := coords3;
     tsp_cost := <[(2, 1) := 6%Q]> (<[(2, 0) := 5%Q]> (<[(1, 2) := 4%Q]>
                 (<[(1, 0) := 3%Q]> (<[(0, 2) := 2%Q]> (<[(0, 1) := 1%Q]> ∅))))) |}.


Definition optimize_to (obj : Q) (xs : Arc -> Q) : Optimizer :=
  fun m _ => Ok (finished m GRB_OPTIMAL obj xs).


Definition path_final : BranchAndCutIntegerSolver :=
  let self := BranchAndCutIntegerSolver_init tsp3 in
  with_m self (finished (setParam_LazyConstraints (self_m self) 1) GRB_OPTIMAL 5%Q
                        (snapshot_of [(0, 1); (1, 2)])).

(** The instance a construction returned, the empty instance if it raised. *)
Definition tsp_or_empty (r : result TSPIntance) : TSPIntance :=
  match r with
  | Ok tsp => tsp
  | Raise _ => {| tsp_n := 0; tsp_x := []; tsp_y := []; tsp_cost := ∅ |}
  end.

(** The instance with [k] vertices at the origin and every cost [1.0]. *)
Definition unit_instance (k : nat) : TSPIntance :=
  tsp_or_empty (TSPIntance_init (replicate k 0%Q) (replicate k 0%Q)
                                (replicate (k * (k - 1)) 1%Q)).

(** The solver for [tsp] inside a [MIPSOL] callback whose candidate selects
    the arcs [sel]. *)
Definition callback_state (tsp : TSPIntance) (sel : list (Z * Z))
  : BranchAndCutIntegerSolver :=
  let self := BranchAndCutIntegerSolver_init tsp in
  with_m self (at_mipsol (self_m self) (snapshot_of sel)).

(** Four vertices, the walk from [0] running into the loop [1 -> 2 -> 1]. *)
Definition rho_state : BranchAndCutIntegerSolver :=
  callback_state (unit_instance 4) [(0, 1); (1, 2); (2, 1)].

(** Three vertices, the only selected arc [0 -> 1]. *)
Definition dangling_state : BranchAndCutIntegerSolver :=
  callback_state tsp3 [(0, 1)].

(** Three vertices, the path [0 -> 1 -> 2]. *)
Definition path_state : BranchAndCutIntegerSolver :=
  callback_state tsp3 [(0, 1); (1, 2)].

(** Six vertices, the loops [0 -> 1 -> 0] and [2 -> 3 -> 2]. *)
Definition two_loops_state : BranchAndCutIntegerSolver :=
  callback_state (unit_instance 6) [(0, 1); (1, 0); (2, 3); (3, 2)].

(** ** Auxiliary notions for the statements *)

(** The number of elements of [js] other than [i]: the entries one run of
    the inner loop takes from the cost list. *)
Fixpoint others (i : Z) (js : list Z) : Z :=
  match js with
  | [] => 0
  | j :: js' => (if i =? j then 0 else 1) + others i js'
  end.

(** The snapshot [__next_vertex] reads: the candidate's values in a
    [MIPSOL] callback, the final values [X] anywhere else. *)
Definition snapshot (self : BranchAndCutIntegerSolver) : Arc -> Q :=
  match m_where (self_m self) with
  | Some w => if w =? GRB_Callback_MIPSOL then m_cbSolution (self_m self)
              else m_X (self_m self)
  | None => m_X (self_m self)
  end.

(** There is a snapshot to read: the callback running is one called with
    [MIPSOL], or the attribute [X] is available. *)
Definition readable (self : BranchAndCutIntegerSolver) : bool :=
  match m_where (self_m self) with
  | Some w => (w =? GRB_Callback_MIPSOL) || X_available (self_m self)
  | None => X_available (self_m self)
  end.

(** The arc [(i, j)] counts as selected in the snapshot. *)
Definition selected (self : BranchAndCutIntegerSolver) (i j : Z) : Prop :=
  (1 # 2 < snapshot self (i, j))%Q.

(** A solver as [__init__] builds it from an instance [TSPIntance.__init__]
    built: the variables are keyed by the arcs. *)
Definition solver_wf (self : BranchAndCutIntegerSolver) : Prop :=
  inst_wf (self_tsp self) /\ self_x self = arcs (self_tsp self).

(** No vertex is the successor of two vertices. *)
Definition one_predecessor (self : BranchAndCutIntegerSolver) : Prop :=
  forall a b c : Z,
    next_vertex self (Some a) = Ok (Some c) ->
    next_vertex self (Some b) = Ok (Some c) ->
    a = b.

(** The check of [one_predecessor] over the vertices. *)
Definition distinct_successors (self : BranchAndCutIntegerSolver) : bool :=
  let vs := vertices (tsp_n (self_tsp self)) in
  forallb (fun a =>
    forallb (fun b =>
      (a =? b) ||
      match next_vertex self (Some a), next_vertex self (Some b) with
      | Ok (Some c), Ok (Some d) => negb (c =? d)
      | _, _ => true
      end) vs) vs.

(** The arcs along the closed cycle through [T]: [(T[k], T[k+1])] for the
    consecutive vertices, and the closing arc [(T[last], T[0])]. *)
Definition cycle_arcs (T : list Z) : list (Z * Z) :=
  match T with
  | [] => []
  | t0 :: rest => zip T (rest ++ [t0])
  end.

(** The subtour-elimination constraint of the design document for the
    subtour [T]: the selection variables along the cycle sum to at most
    [|T| - 1]. *)
Definition SEC (T : list Z) : TempConstr :=
  {| lhs := {| le_vars := cycle_arcs T; le_const := 0 |};
     sense := LESS_EQUAL;
     rhs := num (Z.of_nat (length T) - 1) |}.

(** The subtour scan as the design document words it: walks are decoded
    from picked vertices of the remaining set; a walk that is legal (shorter
    than two, the singleton of its start, or ending at the sink) ends the
    scan, any other walk is emitted, its vertices leave the remaining set and
    the scan goes on. *)
Fixpoint illegal_subtours (pick : gset Z -> Z) (walk_fuel fuel : nat)
    (self : BranchAndCutIntegerSolver) (remaining : gset Z)
  : option (result (list (list (option Z)))) :=
  if (0 <? size remaining)%nat then
    match fuel with
    | O => None
    | S fuel' =>
        let start := pick remaining in
        match tour_starting_at walk_fuel self start with
        | None => None
        | Some (Raise e) => Some (Raise e)
        | Some (Ok walk) =>
            if (length walk <? 2)%nat
               || bool_decide (walk = [Some start])
               || bool_decide (last walk = Some (Some (tsp_n (self_tsp self) - 1)))
            then Some (Ok [])
            else
              match illegal_subtours pick walk_fuel fuel' self
                                     (remaining ∖ set_of walk) with
              | Some (Ok found) => Some (Ok (walk :: found))
              | other => other
              end
        end
    end
  else Some (Ok []).

(** [x > 0.5] at the arc [(i, j)] of the snapshot, and the degrees of a
    vertex among the selected arcs. *)
Definition selb (self : BranchAndCutIntegerSolver) (i j : Z) : bool :=
  gt_half (snapshot self (i, j)).

Definition out_degree (self : BranchAndCutIntegerSolver) (v : Z) : nat :=
  length (filter (fun j => j <> v /\ selb self v j = true)
                 (vertices (tsp_n (self_tsp self)))).

Definition in_degree (self : BranchAndCutIntegerSolver) (v : Z) : nat :=
  length (filter (fun k => k <> v /\ selb self k v = true)
                 (vertices (tsp_n (self_tsp self)))).

(** The selected arcs of the snapshot obey the degree constraints of the
    base model: what the engine guarantees of a solution it reports. *)
Definition degree_feasible (self : BranchAndCutIntegerSolver) : Prop :=
  let n := tsp_n (self_tsp self) in
  out_degree self 0 = 1%nat /\
  in_degree self (n - 1) = 1%nat /\
  (forall v, 1 <= v <= n - 2 -> out_degree self v = in_degree self v) /\
  out_degree self (n - 1) = 0%nat /\
  in_degree self 0 = 0%nat /\
  (forall v, 0 <= v < n -> (out_degree self v <= 1)%nat).

(** The value of a sum of variables and of a linear expression under an
    assignment [val] of values to the variables, and the meaning of a
    constraint. *)
Definition sum_over (val : Z * Z -> Q) (vars : list (Z * Z)) : Q :=
  foldr (fun a acc => (val a + acc)%Q) 0%Q vars.

Definition eval (val : Z * Z -> Q) (e : LinExpr) : Q :=
  (sum_over val (le_vars e) + inject_Z (le_const e))%Q.

Definition holds (val : Z * Z -> Q) (c : TempConstr) : Prop :=
  match sense c with
  | EQUAL => (eval val (lhs c) == eval val (rhs c))%Q
  | LESS_EQUAL => (eval val (lhs c) <= eval val (rhs c))%Q
  end.

(** Out-degree and in-degree of a vertex as the design document has them:
    the sums of the selection values over the arcs leaving, respectively
    entering, the vertex. *)
Definition out_flow (val : Z * Z -> Q) (n v : Z) : Q :=
  sum_over val ((fun j => (v, j)) <$> filter (fun j => j <> v) (vertices n)).

Definition in_flow (val : Z * Z -> Q) (n v : Z) : Q :=
  sum_over val ((fun k => (k, v)) <$> filter (fun k => k <> v) (vertices n)).

(** The constraints of the base model in the design document's words, one
    row each, in its order: out-degree(0) = 1; in-degree(n-1) = 1;
    out-degree(v) = in-degree(v) for the interior vertices [1..n-2];
    out-degree(n-1) = 0; in-degree(0) = 0; out-degree(v) <= 1 for every
    vertex. *)
Definition base_model_rows (n : Z) : list ((Z * Z -> Q) -> Prop) :=
  [fun val => (out_flow val n 0 == 1)%Q;
   fun val => (in_flow val n (n - 1) == 1)%Q]
  ++ ((fun v val => (out_flow val n v == in_flow val n v)%Q) <$> range 1 (n - 1))
  ++ [fun val => (out_flow val n (n - 1) == 0)%Q;
      fun val => (in_flow val n 0 == 0)%Q]
  ++ ((fun v val => (out_flow val n v <= 1)%Q) <$> vertices n).

(** The solver as [self.m.optimize(...)] leaves it in [solve], or the
    exception the call raised. *)
Definition optimized (optimize : Optimizer) (pick : gset Z -> Z) (fuel : nat)
    (self : BranchAndCutIntegerSolver) : result BranchAndCutIntegerSolver :=
  let self := with_m self (setParam_LazyConstraints (self_m self) 1) in
  m ← optimize (self_m self) (solve_callback pick fuel self);
  Ok (with_m self m).

(** ** Further notions: the random factory, the shape of tours, 0/1
    solutions *)

(** [[uniform(a, b) for _ in range(count)]]: the random source is an
    oracle, [uniform a b k] being what the call numbered [k] of the run
    returns; [first] calls were made before. *)
Definition draws (uniform : Q -> Q -> nat -> Q) (a b : Q) (first : nat)
    (count : Z) : list Q :=
  (fun k => uniform a b (first + k)%nat) <$> seq 0 (Z.to_nat count).

(** [TSPIntance.random(n)] *)
Definition TSPIntance_random (uniform : Q -> Q -> nat -> Q) (n : Z)
  : result TSPIntance :=
  let x := draws uniform 0 10 0 n in
  let y := draws uniform 0 10 (length x) n in
  let costs := draws uniform (-10) 10 (length x + length y) (n * (n - 1)) in
  TSPIntance_init x y costs.

(** All ordered pairs of distinct vertices, row by row. *)
Definition arc_list (n : Z) : list (Z * Z) :=
  i ← vertices n; (fun j => (i, j)) <$> filter (fun j => j <> i) (vertices n).

(** Each element of the tour but the first is what [__next_vertex] returns
    for the element before it. *)
Definition follows (self : BranchAndCutIntegerSolver) (t : list (option Z)) : Prop :=
  forall (k : nat) (a b : option Z),
    t !! k = Some a -> t !! S k = Some b -> next_vertex self a = Ok b.

(** The degree constraints of the base model as one condition on an
    assignment [val] of values to the arcs. *)
Definition base_model (val : Z * Z -> Q) (n : Z) : Prop :=
  (out_flow val n 0 == 1)%Q /\
  (in_flow val n (n - 1) == 1)%Q /\
  (forall v, 1 <= v <= n - 2 -> (out_flow val n v == in_flow val n v)%Q) /\
  (out_flow val n (n - 1) == 0)%Q /\
  (in_flow val n 0 == 0)%Q /\
  (forall v, 0 <= v < n -> (out_flow val n v <= 1)%Q).

(** Every value is [0] or [1]. *)
Definition binary (val : Z * Z -> Q) : Prop :=
  forall a, (val a == 0)%Q \/ (val a == 1)%Q.

(* ================================================================= *)
(** * Properties *)

(** ** [getitem] *)

Lemma getitem_in_range {A : Type} (l : list A) (k : Z) :
  0 <= k < Z.of_nat (length l) -> exists a, getitem l k = Ok a /\ l !! Z.to_nat k = Some a.
Proof.
  intros Hk. unfold getitem.
  destruct (k <? 0) eqn:E1; [lia|]. rewrite E1.
  destruct (lookup_lt_is_Some_2 l (Z.to_nat k)) as [a Ha]; [lia|].
  exists a. by rewrite Ha.
Qed.

Lemma getitem_beyond {A : Type} (l : list A) (k : Z) :
  Z.of_nat (length l) <= k -> getitem l k = Raise IndexError.
Proof.
  intros Hk. unfold getitem.
  destruct (k <? 0) eqn:E1; [lia|]. rewrite E1.
  rewrite lookup_ge_None_2; [done | lia].
Qed.

Lemma getitem_app {A : Type} (l extra : list A) (k : Z) :
  0 <= k < Z.of_nat (length l) -> getitem (l ++ extra) k = getitem l k.
Proof.
  intros Hk. unfold getitem.
  destruct (k <? 0) eqn:E1; [lia|]. rewrite E1.
  by rewrite lookup_app_l by lia.
Qed.

(** ** The loops of [TSPIntance.__init__] *)

Lemma others_nonneg i js : 0 <= others i js.
Proof. induction js as [|j js IH]; simpl; [lia|]. destruct (i =? j); lia. Qed.

Lemma others_app i l1 l2 : others i (l1 ++ l2) = others i l1 + others i l2.
Proof. induction l1 as [|j l1 IH]; simpl; [lia|]. rewrite IH. lia. Qed.

Lemma others_seqZ_nat i m (k : nat) :
  others i (seqZ m (Z.of_nat k)) =
  if bool_decide (m <= i < m + Z.of_nat k) then Z.of_nat k - 1 else Z.of_nat k.
Proof.
  induction k as [|k IH].
  - simpl. case_bool_decide; [lia | done].
  - rewrite seqZ_S, others_app, IH. simpl.
    destruct (i =? m + Z.of_nat k) eqn:E; repeat case_bool_decide; lia.
Qed.

Lemma others_vertices i n :
  0 <= i < n -> others i (vertices n) = n - 1.
Proof.
  intros Hi. unfold vertices, range.
  replace (n - 0) with (Z.of_nat (Z.to_nat n)) by lia.
  rewrite others_seqZ_nat. case_bool_decide; lia.
Qed.

Lemma init_inner_ok costs i js : forall (c : gmap Arc Q) k,
  0 <= k -> k + others i js <= Z.of_nat (length costs) ->
  exists c',
    for_each (init_body costs i) (c, k) js = Ok (c', k + others i js) /\
    forall a b, is_Some (c' !! (a, b)) <->
                is_Some (c !! (a, b)) \/ (a = i /\ b ∈ js /\ b <> i).
Proof.
  induction js as [|j js IH]; intros c k Hk Hlen; simpl in *.
  - exists c. split; [f_equal; f_equal; lia|]. intros a b.
    split; [by left | intros [? | (_ & Hb & _)]; [done | by apply elem_of_nil in Hb]].
  - pose proof (others_nonneg i js) as Hnn. revert Hlen.
    destruct (i =? j) eqn:E; intros Hlen.
    + apply Z.eqb_eq in E. subst j.
      destruct (IH c k) as (c' & Hrun & Hdom); [lia | lia |].
      exists c'. split; [rewrite Hrun; f_equal; f_equal; lia|].
      intros a b. rewrite Hdom. split.
      * intros [? | (? & ? & ?)]; [by left | right; split_and!; [done | by right | done]].
      * intros [? | (? & Hb & ?)]; [by left|].
        apply elem_of_cons in Hb as [-> | Hb]; [done | by right].
    + apply Z.eqb_neq in E.
      destruct (getitem_in_range costs k) as (q & Hq & _); [lia|].
      rewrite Hq. simpl.
      destruct (IH (<[(i, j) := q]> c) (k + 1)) as (c' & Hrun & Hdom); [lia | lia |].
      exists c'. split; [rewrite Hrun; f_equal; f_equal; lia|].
      intros a b. rewrite Hdom.
      destruct (decide ((i, j) = (a, b))) as [Heq | Hne].
      * inversion Heq; subst. rewrite lookup_insert_eq. split; [|by eauto].
        intros _. right. split_and!; [done | by left | congruence].
      * rewrite lookup_insert_ne by done. split.
        -- intros [? | (? & ? & ?)]; [by left | right; split_and!; [done | by right | done]].
        -- intros [? | (-> & Hb & ?)]; [by left|].
           apply elem_of_cons in Hb as [-> | Hb]; [done | by right].
Qed.

Lemma init_inner_short costs i js : forall (c : gmap Arc Q) k,
  0 <= k <= Z.of_nat (length costs) ->
  Z.of_nat (length costs) < k + others i js ->
  for_each (init_body costs i) (c, k) js = Raise IndexError.
Proof.
  induction js as [|j js IH]; intros c k Hk Hlen; simpl in *; [lia|].
  revert Hlen. destruct (i =? j) eqn:E; intros Hlen.
  - apply IH; lia.
  - destruct (decide (k < Z.of_nat (length costs))) as [Hlt | Hge].
    + destruct (getitem_in_range costs k) as (q & Hq & _); [lia|].
      rewrite Hq. simpl. apply IH; lia.
    + rewrite getitem_beyond by lia. done.
Qed.

Lemma init_outer_ok costs js w : forall (vs : list Z) (c : gmap Arc Q) k,
  0 <= k -> (forall i, i ∈ vs -> others i js = w) ->
  k + Z.of_nat (length vs) * w <= Z.of_nat (length costs) ->
  exists c',
    for_each (fun st i => for_each (init_body costs i) st js) (c, k) vs
      = Ok (c', k + Z.of_nat (length vs) * w) /\
    forall a b, is_Some (c' !! (a, b)) <->
                is_Some (c !! (a, b)) \/ (a ∈ vs /\ b ∈ js /\ b <> a).
Proof.
  induction vs as [|i vs IH]; intros c k Hk Hw Hlen.
  - exists c. split; [simpl; f_equal; f_equal; lia|]. intros a b.
    split; [by left | intros [? | (Ha & _)]; [done | by apply elem_of_nil in Ha]].
  - assert (Hi : others i js = w) by (apply Hw; by left).
    pose proof (others_nonneg i js) as Hnn.
    cbn [for_each].
    destruct (init_inner_ok costs i js c k) as (c1 & Hrun1 & Hdom1); [lia | simpl in Hlen; nia |].
    rewrite Hrun1.
    destruct (IH c1 (k + others i js)) as (c' & Hrun & Hdom);
      [lia | intros; apply Hw; by right | simpl in Hlen; nia |].
    exists c'. split.
    + rewrite Hrun. f_equal. f_equal. simpl length. nia.
    + intros a b. rewrite Hdom, Hdom1, elem_of_cons. intuition (subst; auto).
Qed.

Lemma init_outer_short costs js w : forall (vs : list Z) (c : gmap Arc Q) k,
  0 <= k <= Z.of_nat (length costs) ->
  (forall i, i ∈ vs -> others i js = w) ->
  Z.of_nat (length costs) < k + Z.of_nat (length vs) * w ->
  for_each (fun st i => for_each (init_body costs i) st js) (c, k) vs
    = Raise IndexError.
Proof.
  induction vs as [|i vs IH]; intros c k Hk Hw Hlen.
  - simpl in Hlen. lia.
  - assert (Hi : others i js = w) by (apply Hw; by left).
    pose proof (others_nonneg i js) as Hnn.
    cbn [for_each].
    destruct (decide (k + others i js <= Z.of_nat (length costs))) as [Hfit | Hshort].
    + destruct (init_inner_ok costs i js c k) as (c1 & Hrun1 & _); [lia | lia |].
      rewrite Hrun1. apply IH; [lia | intros; apply Hw; by right | simpl length in Hlen; nia].
    + rewrite init_inner_short; [done | lia | lia].
Qed.

Lemma length_vertices n : Z.of_nat (length (vertices n)) = Z.max 0 n.
Proof. unfold vertices, range. rewrite length_seqZ. lia. Qed.

Lemma elem_of_vertices i n : i ∈ vertices n <-> 0 <= i < n.
Proof. unfold vertices, range. rewrite elem_of_seqZ. lia. Qed.

(** [__init__] passes the assertion and the loops when the cost list is long
    enough, and the instance then has exactly the arcs as keys. *)
Lemma TSPIntance_init_ok (x y costs : list Q) :
  let n := Z.of_nat (length x) in
  length x = length y ->
  n * (n - 1) <= Z.of_nat (length costs) ->
  exists tsp, TSPIntance_init x y costs = Ok tsp /\
              tsp_n tsp = n /\ tsp_x tsp = x /\ tsp_y tsp = y /\ inst_wf tsp.
Proof.
  intros n Hxy Hlen. unfold TSPIntance_init.
  rewrite (proj2 (Nat.eqb_eq _ _) Hxy). simpl negb. cbv iota.
  fold n.
  destruct (init_outer_ok costs (vertices n) (n - 1) (vertices n) ∅ 0)
    as (c' & Hrun & Hdom).
  - lia.
  - intros i Hi. apply others_vertices. by apply elem_of_vertices.
  - rewrite length_vertices. lia.
  - rewrite Hrun. simpl. eexists. split; [done|]. split_and!; try done.
    intros i j. simpl. rewrite Hdom, lookup_empty, !elem_of_vertices. split.
    + intros [H | H]; [by apply is_Some_None in H | lia].
    + intros H. right. lia.
Qed.

Lemma TSPIntance_init_short (x y costs : list Q) :
  let n := Z.of_nat (length x) in
  length x = length y ->
  Z.of_nat (length costs) < n * (n - 1) ->
  TSPIntance_init x y costs = Raise IndexError.
Proof.
  intros n Hxy Hlen. unfold TSPIntance_init.
  rewrite (proj2 (Nat.eqb_eq _ _) Hxy). simpl negb. cbv iota.
  fold n.
  rewrite (init_outer_short costs (vertices n) (n - 1)); [done | lia | |].
  - intros i Hi. apply others_vertices. by apply elem_of_vertices.
  - rewrite length_vertices. lia.
Qed.

Lemma TSPIntance_init_mismatch (x y costs : list Q) :
  length x <> length y -> TSPIntance_init x y costs = Raise AssertionError.
Proof.
  intros Hxy. unfold TSPIntance_init.
  by rewrite (proj2 (Nat.eqb_neq _ _) Hxy).
Qed.

(** Entries of the cost list beyond those the loops consume play no part. *)
Lemma init_inner_app costs extra i js : forall (c : gmap (Z * Z) Q) k,
  0 <= k -> k + others i js <= Z.of_nat (length costs) ->
  for_each (init_body (costs ++ extra) i) (c, k) js
  = for_each (init_body costs i) (c, k) js.
Proof.
  induction js as [|j js IH]; intros c k Hk Hlen; simpl in *; [done|].
  pose proof (others_nonneg i js) as Hnn. revert Hlen.
  destruct (i =? j) eqn:E; intros Hlen.
  - apply IH; lia.
  - rewrite getitem_app by lia.
    destruct (getitem costs k); simpl; [apply IH; lia | done].
Qed.

Lemma init_outer_app costs extra js w : forall (vs : list Z) (c : gmap (Z * Z) Q) k,
  0 <= k -> (forall i, i ∈ vs -> others i js = w) ->
  k + Z.of_nat (length vs) * w <= Z.of_nat (length costs) ->
  for_each (fun st i => for_each (init_body (costs ++ extra) i) st js) (c, k) vs
  = for_each (fun st i => for_each (init_body costs i) st js) (c, k) vs.
Proof.
  induction vs as [|i vs IH]; intros c k Hk Hw Hlen; [done|].
  assert (Hi : others i js = w) by (apply Hw; by left).
  pose proof (others_nonneg i js) as Hnn.
  cbn [for_each]. simpl length in Hlen.
  rewrite init_inner_app by nia.
  destruct (init_inner_ok costs i js c k) as (c1 & -> & _); [lia | nia |].
  apply IH; [lia | intros; apply Hw; by right | nia].
Qed.

Lemma TSPIntance_init_surplus (x y costs extra : list Q) :
  let n := Z.of_nat (length x) in
  n * (n - 1) <= Z.of_nat (length costs) ->
  TSPIntance_init x y (costs ++ extra) = TSPIntance_init x y costs.
Proof.
  intros n Hlen. unfold TSPIntance_init.
  destruct (negb _); [done|]. fold n.
  rewrite (init_outer_app costs extra (vertices n) (n - 1)); [done | lia | |].
  - intros i Hi. apply others_vertices. by apply elem_of_vertices.
  - rewrite length_vertices. lia.
Qed.

(** ** [TSPSolution.__init__] *)

Lemma cost_at_raises tsp i j e : cost_at tsp i j = Raise e -> e = KeyError.
Proof.
  unfold cost_at, dict_get. destruct i, j; try congruence.
  destruct (_ !! _); congruence.
Qed.

Lemma cost_at_diagonal tsp i : inst_wf tsp -> cost_at tsp i i = Raise KeyError.
Proof.
  intros Hwf. destruct i as [v|]; [|reflexivity]. unfold cost_at, dict_get.
  destruct (_ !! _) eqn:E; [|done].
  assert (Hs : is_Some (tsp_cost tsp !! (v, v))) by eauto.
  apply Hwf in Hs. lia.
Qed.

(** One pass of the inner loop either raises [KeyError] or completes. *)
Lemma derived_inner_raises tsp i js : forall acc e,
  for_each (fun acc' j => c ← cost_at tsp i j; Ok (acc' + c)%Q) acc js = Raise e ->
  e = KeyError.
Proof.
  induction js as [|j js IH]; intros acc e; simpl; [congruence|].
  destruct (cost_at tsp i j) eqn:E; simpl.
  - apply IH.
  - intros [= <-]. by apply cost_at_raises in E.
Qed.

(** On a tour of three or more vertices the second pass of the outer loop
    begins with the pair [(tour[1], tour[1])], which is no arc. *)
Lemma derived_cost_three tsp (tour : Tour) :
  inst_wf tsp -> (3 <= length tour)%nat -> derived_cost tsp tour = Raise KeyError.
Proof.
  intros Hwf Hlen.
  destruct tour as [|t0 [|t1 [|t2 rest]]]; simpl in Hlen; try lia.
  unfold derived_cost.
  change (but_first (t0 :: t1 :: t2 :: rest)) with (t1 :: t2 :: rest).
  change (but_last (t0 :: t1 :: t2 :: rest)) with (t0 :: t1 :: but_last (t2 :: rest)).
  set (js := t1 :: t2 :: rest).
  set (pass := fun acc i => for_each _ acc js).
  cbn [for_each]. destruct (pass 0%Q t0) as [acc|e] eqn:E0.
  - subst pass js. cbn [for_each]. by rewrite (cost_at_diagonal tsp t1 Hwf).
  - f_equal. subst pass. by apply derived_inner_raises in E0.
Qed.

(** On a tour of at most two vertices the derived cost is the consecutive
    sum. *)
Lemma derived_cost_short tsp (tour : Tour) :
  (length tour <= 2)%nat ->
  match derived_cost tsp tour, consecutive_cost tsp tour with
  | Ok a, Ok b => (a == b)%Q
  | Raise e, Raise e' => e = e'
  | _, _ => False
  end.
Proof.
  intros Hlen. destruct tour as [|t0 [|t1 [|t2 rest]]]; simpl in Hlen; try lia.
  - done.
  - done.
  - unfold derived_cost. simpl. destruct (cost_at tsp t0 t1); simpl; [ring | done].
Qed.

(** C1 (the code departs from the claim).  The claim: a Solution built
    from a Tour and an Instance has the sum of [cost(tour[k], tour[k+1])]
    over the consecutive pairs as its cost.  On the instance with three
    vertices and the tour [[0, 1, 2]] that sum is [1 + 4 = 5], while
    [TSPSolution.__init__] pairs every element of [tour[:-1]] with every
    element of [tour[1:]], reaches the pair [(1, 1)] and raises
    [KeyError]. *)
Theorem derived_cost_on_three_vertices :
  TSPIntance_init coords3 coords3 costs3 = Ok tsp3 /\
  consecutive_cost tsp3 [Some 0; Some 1; Some 2] = Ok 5%Q /\
  TSPSolution_init [Some 0; Some 1; Some 2]
    {| kw_cost := None; kw_instance := Some tsp3 |} = Raise KeyError.
Proof. split_and!; vm_compute; reflexivity. Qed.

(** C10.  With both an explicit cost and an Instance in the keyword
    arguments, the Solution stores the explicit cost; the result is the one
    obtained with no Instance at all, so the Instance plays no part. *)
Theorem explicit_cost_takes_precedence (tour : Tour) (c : Q) (tsp : TSPIntance) :
  TSPSolution_init tour {| kw_cost := Some c; kw_instance := Some tsp |}
    = Ok {| sol_tour := tour; sol_cost := c |} /\
  TSPSolution_init tour {| kw_cost := Some c; kw_instance := Some tsp |}
    = TSPSolution_init tour {| kw_cost := Some c; kw_instance := None |}.
Proof. split; reflexivity. Qed.

(** C8, as stated, fails: a cost list longer than [n*(n-1)] is accepted.
    With two vertices and three costs the construction succeeds and the third
    cost is dropped. *)
Lemma long_cost_list_accepted :
  Z.of_nat (length [1; 2; 3]%Q) <> 2 * (2 - 1) /\
  TSPIntance_init [0; 0]%Q [0; 0]%Q [1; 2; 3]%Q
    = Ok {| tsp_n := 2; tsp_x := [0; 0]%Q; tsp_y := [0; 0]%Q;
            tsp_cost := <[(1, 0) := 2%Q]> (<[(0, 1) := 1%Q]> ∅) |}.
Proof. split; [simpl; lia | vm_compute; reflexivity]. Qed.

(** C8, amended.  [TSPIntance.__init__] raises [AssertionError] when the
    coordinate lists differ in length and [IndexError] when the cost list is
    shorter than [n*(n-1)]; with a cost list of that length or longer it
    returns an instance with a cost for exactly the arcs, the same instance
    as for the first [n*(n-1)] costs alone.  [TSPSolution.__init__] raises
    [AssertionError] when the keyword arguments hold neither a cost nor an
    instance. *)
Theorem construction_failures (x y costs : list Q) (tour : list (option Z)) :
  let n := Z.of_nat (length x) in
  (length x <> length y ->
     TSPIntance_init x y costs = Raise AssertionError) /\
  (length x = length y -> Z.of_nat (length costs) < n * (n - 1) ->
     TSPIntance_init x y costs = Raise IndexError) /\
  (length x = length y -> n * (n - 1) <= Z.of_nat (length costs) ->
     exists tsp, TSPIntance_init x y costs = Ok tsp /\ tsp_n tsp = n /\ inst_wf tsp /\
                 TSPIntance_init x y (take (Z.to_nat (n * (n - 1))) costs) = Ok tsp) /\
  TSPSolution_init tour {| kw_cost := None; kw_instance := None |}
    = Raise AssertionError.
Proof.
  intros n. split_and!.
  - apply TSPIntance_init_mismatch.
  - apply TSPIntance_init_short.
  - intros Hxy Hlen.
    destruct (TSPIntance_init_ok x y costs Hxy Hlen) as (tsp & Hrun & ? & _ & _ & ?).
    exists tsp. split_and!; try done.
    rewrite <- Hrun.
    rewrite <- (take_drop (Z.to_nat (n * (n - 1))) costs) at 2.
    symmetry. apply TSPIntance_init_surplus. fold n.
    rewrite length_take. nia.
  - reflexivity.
Qed.

Lemma construction_failures_witness :
  TSPIntance_init [0]%Q [0; 0]%Q [1; 2]%Q = Raise AssertionError /\
  TSPIntance_init [0; 0]%Q [0; 0]%Q [1]%Q = Raise IndexError /\
  (exists tsp,
      TSPIntance_init [0; 0]%Q [0; 0]%Q [1; 2; 3]%Q = Ok tsp /\
      tsp_n tsp = 2 /\ inst_wf tsp /\
      TSPIntance_init [0; 0]%Q [0; 0]%Q [1; 2]%Q = Ok tsp).
Proof.
  split_and!.
  - apply (construction_failures [0]%Q [0; 0]%Q [1; 2]%Q []). simpl. lia.
  - apply (construction_failures [0; 0]%Q [0; 0]%Q [1]%Q []); [reflexivity | simpl; lia].
  - apply (construction_failures [0; 0]%Q [0; 0]%Q [1; 2; 3]%Q []);
      [reflexivity | simpl; lia].
Defined.

(** ** [__next_vertex] *)

Lemma gt_half_spec (q : Q) : gt_half q = true <-> (1 # 2 < q)%Q.
Proof.
  unfold gt_half. rewrite negb_true_iff, <- not_true_iff_false, Qle_bool_iff.
  split; [apply Qnot_le_lt | apply Qlt_not_le].
Qed.

(** Where there is a snapshot to read, [value_of] gives its value. *)
Lemma value_of_snapshot self v :
  readable self = true -> value_of self v = Ok (snapshot self v).
Proof.
  unfold readable, value_of, cbGetSolution, snapshot, Var_X.
  destruct (m_where (self_m self)) as [w|].
  - destruct (w =? GRB_Callback_MIPSOL); simpl; [done|]. by intros ->.
  - by intros ->.
Qed.

(** Where there is none, the access to [X] raises and nothing catches it. *)
Lemma value_of_unreadable self v :
  readable self = false -> value_of self v = Raise AttributeError.
Proof.
  unfold readable, value_of, cbGetSolution, Var_X.
  destruct (m_where (self_m self)) as [w|].
  - destruct (w =? GRB_Callback_MIPSOL); simpl; [done|]. by intros ->.
  - by intros ->.
Qed.

(** A value that was read is that of the snapshot. *)
Lemma value_of_Ok self v q : value_of self v = Ok q -> q = snapshot self v.
Proof.
  destruct (readable self) eqn:Hread.
  - rewrite value_of_snapshot by done. by intros [= <-].
  - by rewrite value_of_unreadable by done.
Qed.

Lemma optimal_readable self :
  m_Status (self_m self) = GRB_OPTIMAL -> readable self = true.
Proof.
  intros Hst. unfold readable, X_available. rewrite Hst, Z.eqb_refl. simpl.
  destruct (m_where (self_m self)); [apply orb_true_r | done].
Qed.

Lemma solver_wf_key self i j :
  solver_wf self ->
  (i, j) ∈ self_x self <->
  0 <= i < tsp_n (self_tsp self) /\ 0 <= j < tsp_n (self_tsp self) /\ i <> j.
Proof.
  intros [Hwf ->]. unfold arcs. rewrite elem_of_dom. apply Hwf.
Qed.

Lemma solver_wf_with_m self m : solver_wf self -> solver_wf (with_m self m).
Proof. by intros [? ?]. Qed.

Lemma solver_wf_init tsp : inst_wf tsp -> solver_wf (BranchAndCutIntegerSolver_init tsp).
Proof. intros Hwf. split; [exact Hwf | reflexivity]. Qed.

(** The scan over [js] either stops at the first selected [j] other than [i]
    or finds none. *)
Lemma next_vertex_from_scan self (i : Z) (js : list Z) :
  readable self = true ->
  (forall j, j ∈ js -> j <> i -> (i, j) ∈ self_x self) ->
  (exists pre j post,
      js = pre ++ j :: post /\ j <> i /\ selected self i j /\
      (forall k, k ∈ pre -> k <> i -> ~ selected self i k) /\
      next_vertex_from self (Some i) js = Ok (Some j))
  \/ ((forall k, k ∈ js -> k <> i -> ~ selected self i k) /\
      next_vertex_from self (Some i) js = Ok None).
Proof.
  intros Hread. induction js as [|j js IH]; intros Hkeys.
  - right. split; [|done]. intros k Hk. by apply elem_of_nil in Hk.
  - assert (Hkeys' : forall j', j' ∈ js -> j' <> i -> (i, j') ∈ self_x self)
      by (intros; apply Hkeys; [by right | done]).
    specialize (IH Hkeys'). cbn [next_vertex_from].
    case_bool_decide as Hji.
    + injection Hji as ->.
      destruct IH as [(pre & j' & post & -> & ? & ? & Hpre & ->) | [Hnone ->]].
      * left. exists (i :: pre), j', post. split_and!; try done.
        intros k [-> | Hk]%elem_of_cons; [done | by apply Hpre].
      * right. split; [|done].
        intros k [-> | Hk]%elem_of_cons; [done | by apply Hnone].
    + assert (Hne : j <> i) by congruence.
      unfold x_at. rewrite bool_decide_eq_true_2 by (apply Hkeys; [by left | done]).
      simpl. rewrite value_of_snapshot by done. simpl.
      destruct (gt_half (snapshot self (i, j))) eqn:Hsel.
      * left. exists [], j, js. split_and!; try done.
        -- by apply gt_half_spec.
        -- intros k Hk. by apply elem_of_nil in Hk.
      * assert (Hnsel : ~ selected self i j).
        { unfold selected. rewrite <- gt_half_spec. congruence. }
        destruct IH as [(pre & j' & post & -> & ? & ? & Hpre & ->) | [Hnone ->]].
        -- left. exists (j :: pre), j', post. split_and!; try done.
           intros k [-> | Hk]%elem_of_cons; [done | by apply Hpre].
        -- right. split; [|done].
           intros k [-> | Hk]%elem_of_cons; [done | by apply Hnone].
Qed.

(** In [range(n)] the elements before [j] are the vertices below [j]. *)
Lemma vertices_split n pre j post :
  vertices n = pre ++ j :: post ->
  0 <= j < n /\ forall k, 0 <= k < j -> k ∈ pre.
Proof.
  intros Hsplit.
  assert (Hj : vertices n !! length pre = Some j).
  { rewrite Hsplit. by rewrite list_lookup_middle. }
  unfold vertices, range in Hj. apply lookup_seqZ in Hj as [Hj Hlt].
  split; [lia|]. intros k Hk.
  assert (Hk' : vertices n !! Z.to_nat k = Some k).
  { unfold vertices, range. apply lookup_seqZ. lia. }
  rewrite Hsplit, lookup_app_l in Hk' by lia.
  by apply list_elem_of_lookup_2 in Hk'.
Qed.

(** From a vertex, [__next_vertex] returns the lowest selected successor, or
    [None] when there is none; it does not raise where there is a snapshot
    to read. *)
Lemma next_vertex_cases self (i : Z) :
  solver_wf self -> readable self = true -> 0 <= i < tsp_n (self_tsp self) ->
  (exists j, next_vertex self (Some i) = Ok (Some j) /\
             0 <= j < tsp_n (self_tsp self) /\ j <> i /\ selected self i j /\
             forall k, 0 <= k < j -> k <> i -> ~ selected self i k)
  \/ (next_vertex self (Some i) = Ok None /\
      forall k, 0 <= k < tsp_n (self_tsp self) -> k <> i -> ~ selected self i k).
Proof.
  intros Hwf Hread Hi. unfold next_vertex.
  destruct (next_vertex_from_scan self i (vertices (tsp_n (self_tsp self))) Hread)
    as [(pre & j & post & Hsplit & Hne & Hsel & Hpre & Hrun) | [Hnone Hrun]].
  - intros j Hj Hne. apply solver_wf_key; [done|].
    apply elem_of_vertices in Hj. lia.
  - left. exists j. apply vertices_split in Hsplit as [Hj Hbelow].
    split_and!; try done; try lia.
    intros k Hk. apply Hpre. by apply Hbelow.
  - right. split; [done|]. intros k Hk. apply Hnone. by apply elem_of_vertices.
Qed.

(** C5.  For a vertex [i] and a snapshot, read from the candidate of a
    [MIPSOL] callback or from the solution the model holds, [next_vertex]
    returns the lowest-indexed vertex [j] other than [i] with
    [snapshot(i, j) > 0.5], and [None] exactly when no vertex other than [i]
    has; it returns for every such snapshot. *)
Theorem next_vertex_lowest_selected (self : BranchAndCutIntegerSolver) (i : Z) :
  solver_wf self -> readable self = true -> 0 <= i < tsp_n (self_tsp self) ->
  (exists r, next_vertex self (Some i) = Ok r) /\
  (forall j,
      next_vertex self (Some i) = Ok (Some j) <->
      0 <= j < tsp_n (self_tsp self) /\ j <> i /\
      (1 # 2 < snapshot self (i, j))%Q /\
      forall k, 0 <= k < j -> k <> i -> ~ (1 # 2 < snapshot self (i, k))%Q) /\
  (next_vertex self (Some i) = Ok None <->
   forall k, 0 <= k < tsp_n (self_tsp self) -> k <> i ->
             ~ (1 # 2 < snapshot self (i, k))%Q).
Proof.
  intros Hwf Hread Hi.
  destruct (next_vertex_cases self i Hwf Hread Hi)
    as [(j0 & Hrun & Hj0 & Hne0 & Hsel0 & Hleast0) | [Hrun Hnone]];
    rewrite Hrun; (split; [eauto|]); split.
  - intros j. split.
    + intros [= <-]. split_and!; (done || lia).
    + intros (Hj & Hne & Hsel & Hleast). do 2 f_equal.
      destruct (Z.lt_trichotomy j j0) as [Hlt | [Heq | Hgt]]; [|done|].
      * exfalso. apply (Hleast0 j); [lia | done | done].
      * exfalso. apply (Hleast j0); [lia | done | done].
  - split; [done|]. intros Hall. exfalso. by apply (Hall j0).
  - intros j. split; [done|].
    intros (Hj & Hne & Hsel & _). exfalso. by apply (Hnone j).
  - split; [by intros _ | done].
Qed.

(** ** [__tour_starting_at] *)

Lemma tour_loop_unfold fuel self i tour current :
  tour_loop fuel self i tour current =
  if bool_decide (current = Some i) then Some (Ok tour)
  else
    match fuel with
    | O => None
    | S fuel' =>
        if bool_decide (current = Some (tsp_n (self_tsp self) - 1))
        then Some (Ok (tour ++ [current]))
        else
          match next_vertex self current with
          | Raise e => Some (Raise e)
          | Ok current' => tour_loop fuel' self i (tour ++ [current]) current'
          end
    end.
Proof. by destruct fuel. Qed.

Lemma vertices_cons n : 0 < n -> exists rest, vertices n = 0 :: rest.
Proof.
  intros Hn. unfold vertices, range. rewrite seqZ_cons by lia. eauto.
Qed.

(** [__next_vertex(None)] looks up [self.x[None, 0]]. *)
Lemma next_vertex_None self :
  0 < tsp_n (self_tsp self) -> next_vertex self None = Raise KeyError.
Proof.
  intros Hn. unfold next_vertex.
  destruct (vertices_cons _ Hn) as [rest ->]. reflexivity.
Qed.

(** Inside the loop a missing successor is appended and looked up. *)
Lemma tour_loop_None self (i : Z) (fuel : nat) (tour : list (option Z)) :
  0 < tsp_n (self_tsp self) ->
  tour_loop (S fuel) self i tour None = Some (Raise KeyError).
Proof.
  intros Hn. rewrite tour_loop_unfold.
  rewrite !bool_decide_eq_false_2 by done. by rewrite next_vertex_None.
Qed.

(** From an integer that is no vertex, [__next_vertex] returns no vertex. *)
Lemma next_vertex_outside self (v c : Z) :
  solver_wf self -> ~ 0 <= v < tsp_n (self_tsp self) ->
  next_vertex self (Some v) <> Ok (Some c).
Proof.
  intros Hwf Hv. unfold next_vertex.
  destruct (decide (0 < tsp_n (self_tsp self))) as [Hn | Hn].
  - destruct (vertices_cons _ Hn) as [rest ->]. cbn [next_vertex_from].
    rewrite bool_decide_eq_false_2 by (intros [= <-]; lia).
    unfold x_at. rewrite bool_decide_eq_false_2; [done|].
    rewrite (solver_wf_key self v 0 Hwf). lia.
  - unfold vertices, range. rewrite seqZ_nil by lia. done.
Qed.

(** A vertex the scan returns was scanned, has a variable, and its value,
    which was read, is above the threshold. *)
Lemma next_vertex_from_Some self (i : Z) (js : list Z) (c : Z) :
  next_vertex_from self (Some i) js = Ok (Some c) ->
  c ∈ js /\ c <> i /\ (i, c) ∈ self_x self /\
  readable self = true /\ selected self i c.
Proof.
  induction js as [|j js IH]; [done|]. cbn [next_vertex_from].
  case_bool_decide as Hji.
  - intros Hrun. destruct (IH Hrun) as (? & ? & ? & ? & ?).
    split_and!; try done. by right.
  - unfold x_at. case_bool_decide as Hkey; [|done]. simpl.
    destruct (readable self) eqn:Hread.
    + rewrite value_of_snapshot by done. simpl.
      destruct (gt_half (snapshot self (i, j))) eqn:Hsel.
      * intros [= <-]. split_and!; try done; [by left | congruence |].
        by apply gt_half_spec.
      * intros Hrun. destruct (IH Hrun) as (? & ? & ? & ? & ?).
        split_and!; try done. by right.
    + by rewrite value_of_unreadable by done.
Qed.

Lemma next_vertex_in_range self (v c : Z) :
  solver_wf self -> next_vertex self (Some v) = Ok (Some c) ->
  0 <= v < tsp_n (self_tsp self) /\ 0 <= c < tsp_n (self_tsp self) /\ c <> v.
Proof.
  intros Hwf Hrun.
  apply next_vertex_from_Some in Hrun as (_ & Hne & Hkey & _).
  apply (solver_wf_key self v c Hwf) in Hkey. lia.
Qed.

Lemma next_vertex_no_raise self (v : Z) :
  solver_wf self -> readable self = true -> 0 <= v < tsp_n (self_tsp self) ->
  exists r, next_vertex self (Some v) = Ok r.
Proof.
  intros Hwf Hread Hv.
  destruct (next_vertex_cases self v Hwf Hread Hv) as [(j & -> & _) | [-> _]]; eauto.
Qed.

(** Where there is no snapshot to read, the first access raises: from a
    vertex of an instance with another vertex, [__next_vertex] ends with the
    [AttributeError] of the attribute [X]. *)
Lemma next_vertex_from_unreadable self (i : Z) (js : list Z) :
  readable self = false ->
  (forall j, j ∈ js -> j <> i -> (i, j) ∈ self_x self) ->
  (exists j, j ∈ js /\ j <> i) ->
  next_vertex_from self (Some i) js = Raise AttributeError.
Proof.
  intros Hread. induction js as [|j js IH]; intros Hkeys (k & Hk & Hki).
  - by apply elem_of_nil in Hk.
  - cbn [next_vertex_from]. case_bool_decide as Hji.
    + injection Hji as ->. apply IH.
      * intros j' Hj'. apply Hkeys. by right.
      * exists k. split; [|done]. by apply elem_of_cons in Hk as [-> | Hk].
    + unfold x_at.
      rewrite bool_decide_eq_true_2 by (apply Hkeys; [by left | congruence]).
      simpl. by rewrite value_of_unreadable by done.
Qed.

Lemma next_vertex_unreadable self (i : Z) :
  solver_wf self -> readable self = false ->
  0 <= i < tsp_n (self_tsp self) -> 2 <= tsp_n (self_tsp self) ->
  next_vertex self (Some i) = Raise AttributeError.
Proof.
  intros Hwf Hread Hi Hn. unfold next_vertex.
  apply next_vertex_from_unreadable; [done| |].
  - intros j Hj Hne. apply solver_wf_key; [done|].
    apply elem_of_vertices in Hj. lia.
  - exists (if decide (i = 0) then 1 else 0).
    destruct (decide (i = 0)); (split; [apply elem_of_vertices|]); lia.
Qed.

(** A list of distinct vertices has at most [n] elements. *)
Lemma distinct_vertices_length (vs : list Z) n :
  NoDup vs -> (forall v, v ∈ vs -> 0 <= v < n) -> (length vs <= Z.to_nat n)%nat.
Proof.
  intros Hnd Hin.
  assert (Hsub : vs ⊆+ vertices n).
  { apply NoDup_submseteq; [done|]. intros v Hv. apply elem_of_vertices. by apply Hin. }
  apply submseteq_length in Hsub.
  unfold vertices, range in Hsub. rewrite length_seqZ in Hsub. lia.
Qed.

(** The loop, entered with the distinct vertices [vs] in the tour, the last
    of them [p] and [current] its successor, exits while the tour holds
    distinct vertices, when no vertex has two predecessors. *)
Lemma tour_loop_terminates self (i : Z) :
  solver_wf self -> one_predecessor self ->
  forall fuel (vs : list Z) (p : Z) (current : option Z),
    NoDup vs -> (forall v, v ∈ vs -> 0 <= v < tsp_n (self_tsp self)) ->
    i ∈ vs -> p ∈ vs ->
    next_vertex self (Some p) = Ok current ->
    (forall c, c ∈ vs -> c <> i ->
       exists q, q ∈ vs /\ q <> p /\ next_vertex self (Some q) = Ok (Some c)) ->
    (Z.to_nat (tsp_n (self_tsp self)) + 1 <= fuel + length vs)%nat ->
    exists r, tour_loop fuel self i (Some <$> vs) current = Some r /\
              forall t, r = Ok t ->
                exists ws, t = Some <$> ws /\ NoDup ws /\
                           forall v, v ∈ ws -> 0 <= v < tsp_n (self_tsp self).
Proof.
  intros Hwf Hinj. induction fuel as [|fuel IH];
    intros vs p current Hnd Hrange Hi Hp Hnext Hpred Hfuel;
    rewrite tour_loop_unfold; case_bool_decide as Hstop.
  - eexists. split; [done|]. intros t [= <-]. by exists vs.
  - pose proof (distinct_vertices_length vs _ Hnd Hrange). lia.
  - eexists. split; [done|]. intros t [= <-]. by exists vs.
  - destruct current as [c|].
    + assert (Hci : c <> i) by congruence.
      destruct (next_vertex_in_range self p c Hwf Hnext) as (_ & Hc & _).
      assert (Hfresh : c ∉ vs).
      { intros Hcin. destruct (Hpred c Hcin Hci) as (q & _ & Hqp & Hq).
        apply Hqp. by apply (Hinj q p c). }
      assert (Hnd' : NoDup (vs ++ [c])).
      { apply NoDup_app. split_and!; [done | | apply NoDup_singleton].
        intros v Hv ->%list_elem_of_singleton. done. }
      assert (Hrange' : forall v, v ∈ vs ++ [c] -> 0 <= v < tsp_n (self_tsp self)).
      { intros v [Hv | ->%list_elem_of_singleton]%elem_of_app; [by apply Hrange | done]. }
      replace ((Some <$> vs) ++ [Some c]) with (Some <$> (vs ++ [c]))
        by (by rewrite fmap_app).
      case_bool_decide as Hsink.
      * eexists. split; [done|]. intros t [= <-]. by exists (vs ++ [c]).
      * destruct (next_vertex self (Some c)) as [current'|e] eqn:Hnext';
          [|eexists; split; [done|]; by intros t [=]].
        apply (IH (vs ++ [c]) c current'); try done.
        -- apply elem_of_app. by left.
        -- apply elem_of_app. right. by apply list_elem_of_singleton.
        -- intros d [Hd | ->%list_elem_of_singleton]%elem_of_app Hdi.
           ++ destruct (Hpred d Hd Hdi) as (q & Hq & _ & Hqd).
              exists q. split_and!; [apply elem_of_app; by left | | done].
              intros ->. done.
           ++ exists p. split_and!; [apply elem_of_app; by left | | done].
              intros ->. done.
        -- rewrite length_app. simpl. lia.
    + rewrite bool_decide_eq_false_2 by done.
      rewrite next_vertex_None.
      * eexists. split; [done|]. intros t [=].
      * specialize (Hrange p Hp). lia.
Qed.

(** The loop as [__tour_starting_at] enters it: the tour is [[i]] and
    [current] the successor of [i]. *)
Lemma tour_loop_from_start self (i c : Z) (fuel : nat) :
  solver_wf self -> one_predecessor self ->
  0 <= i < tsp_n (self_tsp self) ->
  next_vertex self (Some i) = Ok (Some c) ->
  (Z.to_nat (tsp_n (self_tsp self)) <= fuel)%nat ->
  exists r, tour_loop fuel self i [Some i] (Some c) = Some r /\
            forall t, r = Ok t ->
              exists ws, t = Some <$> ws /\ NoDup ws /\
                         forall v, v ∈ ws -> 0 <= v < tsp_n (self_tsp self).
Proof.
  intros Hwf Hinj Hi Hnext Hfuel.
  apply (tour_loop_terminates self i Hwf Hinj fuel [i] i (Some c)).
  - apply NoDup_singleton.
  - by intros v ->%list_elem_of_singleton.
  - by apply list_elem_of_singleton.
  - by apply list_elem_of_singleton.
  - exact Hnext.
  - by intros d ->%list_elem_of_singleton Hd.
  - simpl length. lia.
Qed.

(** C3, amended.  When no vertex is the successor of two vertices in the
    snapshot, [tour_starting_at(i)] stops within [n] runs of its loop, by
    returning or by raising, and a tour it returns holds distinct vertices,
    at most [n] of them. *)
Theorem tour_starting_at_terminates (self : BranchAndCutIntegerSolver) (i : Z) :
  solver_wf self -> one_predecessor self ->
  0 <= i < tsp_n (self_tsp self) ->
  exists fuel r,
    (fuel <= Z.to_nat (tsp_n (self_tsp self)))%nat /\
    tour_starting_at fuel self i = Some r /\
    forall t, r = Ok t ->
      NoDup t /\ (length t <= Z.to_nat (tsp_n (self_tsp self)))%nat.
Proof.
  intros Hwf Hinj Hi. exists (Z.to_nat (tsp_n (self_tsp self))).
  unfold tour_starting_at.
  destruct (next_vertex self (Some i)) as [[c|]|e] eqn:Hnext.
  - destruct (tour_loop_from_start self i c _ Hwf Hinj Hi Hnext (le_n _))
      as (r & Hrun & Hr).
    exists r. split_and!; [lia | exact Hrun |].
    intros t Ht. destruct (Hr t Ht) as (ws & -> & Hnd & Hrange). split.
    + apply (NoDup_fmap_2 _). exact Hnd.
    + rewrite length_fmap. by apply distinct_vertices_length.
  - exists (Ok [Some i]). split_and!; [lia | done |].
    intros t [= <-]. split; [apply NoDup_singleton | simpl; lia].
  - exists (Raise e). split_and!; [lia | done |]. by intros t [=].
Qed.

(** ** The example instances and states *)

Lemma unit_instance_ok (k : nat) :
  inst_wf (unit_instance k) /\ tsp_n (unit_instance k) = Z.of_nat k.
Proof.
  unfold unit_instance.
  destruct (TSPIntance_init_ok (replicate k 0%Q) (replicate k 0%Q)
              (replicate (k * (k - 1)) 1%Q)) as (tsp & -> & Hn & _ & _ & Hwf).
  - by rewrite !length_replicate.
  - rewrite !length_replicate. nia.
  - simpl. rewrite Hn, length_replicate. done.
Qed.

Lemma tsp3_wf : inst_wf tsp3.
Proof.
  destruct (TSPIntance_init_ok coords3 coords3 costs3) as (tsp & Hrun & _ & _ & _ & Hwf);
    [done | simpl; lia |].
  assert (Heq : TSPIntance_init coords3 coords3 costs3 = Ok tsp3)
    by (vm_compute; reflexivity).
  rewrite Heq in Hrun. by injection Hrun as <-.
Qed.

Lemma callback_state_wf tsp sel : inst_wf tsp -> solver_wf (callback_state tsp sel).
Proof. intros Hwf. apply solver_wf_with_m. by apply solver_wf_init. Qed.

Lemma distinct_successors_sound self :
  solver_wf self -> distinct_successors self = true -> one_predecessor self.
Proof.
  intros Hwf Hcheck a b c Ha Hb.
  destruct (next_vertex_in_range self a c Hwf Ha) as (Hra & _ & _).
  destruct (next_vertex_in_range self b c Hwf Hb) as (Hrb & _ & _).
  unfold distinct_successors in Hcheck.
  rewrite forallb_forall in Hcheck.
  specialize (Hcheck a). rewrite <- list_elem_of_In, elem_of_vertices in Hcheck.
  specialize (Hcheck Hra). rewrite forallb_forall in Hcheck.
  specialize (Hcheck b). rewrite <- list_elem_of_In, elem_of_vertices in Hcheck.
  specialize (Hcheck Hrb). rewrite Ha, Hb, Z.eqb_refl in Hcheck. simpl in Hcheck.
  rewrite orb_false_r in Hcheck. by apply Z.eqb_eq.
Qed.

Lemma tour_starting_at_terminates_witness :
  exists fuel r,
    (fuel <= 3)%nat /\ tour_starting_at fuel path_state 0 = Some r /\
    forall t, r = Ok t -> NoDup t /\ (length t <= 3)%nat.
Proof.
  apply (tour_starting_at_terminates path_state 0).
  - apply callback_state_wf, tsp3_wf.
  - apply distinct_successors_sound; [apply callback_state_wf, tsp3_wf|].
    vm_compute. reflexivity.
  - simpl. lia.
Defined.

Lemma next_vertex_lowest_selected_witness :
  exists r, next_vertex path_state (Some 1) = Ok r.
Proof.
  apply (next_vertex_lowest_selected path_state 1).
  - apply callback_state_wf, tsp3_wf.
  - reflexivity.
  - simpl. lia.
Defined.

(** The loop of the walk from [0] in [rho_state] never exits. *)
Lemma rho_loop_runs_on (fuel : nat) : forall tour,
  tour_loop fuel rho_state 0 tour (Some 1) = None /\
  tour_loop fuel rho_state 0 tour (Some 2) = None.
Proof.
  assert (E1 : next_vertex rho_state (Some 1) = Ok (Some 2)) by (vm_compute; reflexivity).
  assert (E2 : next_vertex rho_state (Some 2) = Ok (Some 1)) by (vm_compute; reflexivity).
  assert (En : tsp_n (self_tsp rho_state) = 4) by (vm_compute; reflexivity).
  induction fuel as [|fuel IH]; intros tour; rewrite !tour_loop_unfold, ?En;
    rewrite !bool_decide_eq_false_2 by (intros [=]); [done|].
  rewrite E1, E2. split; apply IH.
Qed.

(** C3, as stated, fails.  With the arcs [0 -> 1], [1 -> 2], [2 -> 1]
    selected among four vertices, the walk from [0] enters the loop
    [1 -> 2 -> 1], which holds neither [0] nor the sink [3]; no stop
    condition ever fires, however many runs of the loop are allowed. *)
Lemma walk_into_loop_never_stops :
  ~ exists fuel r, tour_starting_at fuel rho_state 0 = Some r.
Proof.
  intros (fuel & r & Hrun). unfold tour_starting_at in Hrun.
  assert (E0 : next_vertex rho_state (Some 0) = Ok (Some 1)) by (vm_compute; reflexivity).
  rewrite E0 in Hrun. by rewrite (proj1 (rho_loop_runs_on fuel _)) in Hrun.
Qed.

(** C4 (the code departs from the claim).  The claim: when the walk
    reaches a vertex without successor, at any step, the vertices visited so
    far are returned.  With three vertices and only the arc [0 -> 1]
    selected, the walk from [0] reaches [1], which has no successor; the
    claim gives the path [[0, 1]], while the loop appends the [None] that
    [__next_vertex] returned and looks up [self.x[None, 0]]: [KeyError].  A
    vertex without successor is only handled when it is the start: the walk
    from [1] returns [[1]]. *)
Theorem walk_reaching_dead_end :
  next_vertex dangling_state (Some 0) = Ok (Some 1) /\
  next_vertex dangling_state (Some 1) = Ok None /\
  tour_starting_at 3 dangling_state 0 = Some (Raise KeyError) /\
  tour_starting_at 3 dangling_state 1 = Some (Ok [Some 1]).
Proof. split_and!; vm_compute; reflexivity. Qed.

(** ** [__add_sec_for] and [__find_subtours] *)

(** On a subtour with an element the sum raises at the first unpacking;
    nothing reaches [cbLazy]. *)
Lemma add_sec_for_raises self (subtour : list (option Z)) :
  subtour <> [] -> add_sec_for self subtour = (Raise TypeError, self).
Proof.
  intros Hne. destruct subtour as [|e rest]; [done|].
  unfold add_sec_for. cbn [for_each]. by destruct e.
Qed.

(** No call of [__add_sec_for] changes the model. *)
Lemma add_sec_for_state self (subtour : list (option Z)) :
  exists e, add_sec_for self subtour = (Raise e, self).
Proof.
  destruct subtour as [|e rest].
  - by exists GurobiError.
  - exists TypeError. by apply add_sec_for_raises.
Qed.

(** The scan leaves the model as it found it: no lazy constraint is ever
    submitted. *)
Lemma find_subtours_loop_state pick walk_fuel fuel : forall self remaining r self',
  find_subtours_loop pick walk_fuel fuel self remaining = Some (r, self') ->
  self' = self.
Proof.
  induction fuel as [|fuel IH]; intros self remaining r self'; simpl;
    destruct (0 <? size remaining)%nat; try congruence.
  destruct (tour_starting_at _ _ _) as [[subtour|e]|]; try congruence.
  destruct (stops_scan _ _ _) as [[|]|e]; try congruence.
  destruct (add_sec_for_state self subtour) as [e ->]. congruence.
Qed.

Lemma find_subtours_state pick fuel self where_ r self' :
  find_subtours pick fuel self where_ = Some (r, self') -> self' = self.
Proof.
  unfold find_subtours. destruct (negb _); [congruence|].
  apply find_subtours_loop_state.
Qed.

(** A legal walk ends the scan at once, whatever is left in [remaining]. *)
Lemma find_subtours_loop_stops pick walk_fuel fuel self remaining walk :
  (0 < size remaining)%nat ->
  tour_starting_at walk_fuel self (pick remaining) = Some (Ok walk) ->
  stops_scan self (pick remaining) walk = Ok true ->
  find_subtours_loop pick walk_fuel (S fuel) self remaining = Some (Ok tt, self).
Proof.
  intros Hrem Hwalk Hstop. cbn [find_subtours_loop].
  rewrite (proj2 (Nat.ltb_lt _ _) Hrem). by rewrite Hwalk, Hstop.
Qed.

(** C2 (the code departs from the claim).  The claim: for the subtour
    [T] the inequality over the arcs of the closed cycle through [T], with
    bound [|T| - 1], is submitted, and the operation does not fail.  For
    [T = [2, 3]] among six vertices that is [x[2,3] + x[3,2] <= 1], and both
    variables exist; [__add_sec_for] iterates [for i, j in subtour], unpacks
    the integer [2] into two targets and raises [TypeError], leaving the
    list of lazy constraints empty. *)
Theorem add_sec_for_on_two_cycle :
  SEC [2; 3] = {| lhs := {| le_vars := [(2, 3); (3, 2)]; le_const := 0 |};
                  sense := LESS_EQUAL; rhs := num 1 |} /\
  x_at two_loops_state (Some 2) (Some 3) = Ok (2, 3) /\
  x_at two_loops_state (Some 3) (Some 2) = Ok (3, 2) /\
  add_sec_for two_loops_state [Some 2; Some 3] = (Raise TypeError, two_loops_state) /\
  m_lazy (self_m (add_sec_for two_loops_state [Some 2; Some 3]).2) = [].
Proof.
  split_and!; try (vm_compute; reflexivity).
Qed.

(** C6 (the code departs from the claim; the defect is that of C2).  The
    claim: a walk that is not legal is emitted, its vertices leave the
    remaining set and the scan goes on.  With the loops [0 -> 1 -> 0] and
    [2 -> 3 -> 2] selected among six vertices and the set iterated from its
    least element, that scan emits [[0, 1]], then [[2, 3]], and stops at the
    walk [[4]].  [__find_subtours] decodes [[0, 1]], calls [__add_sec_for] on
    it and ends there with its [TypeError]: nothing is submitted and the
    second loop is never looked at. *)
Theorem find_subtours_on_two_loops :
  illegal_subtours pick_min 6 6 two_loops_state (list_to_set (vertices 6))
    = Some (Ok [[Some 0; Some 1]; [Some 2; Some 3]]) /\
  tour_starting_at 6 two_loops_state 0 = Some (Ok [Some 0; Some 1]) /\
  stops_scan two_loops_state 0 [Some 0; Some 1] = Ok false /\
  find_subtours pick_min 6 two_loops_state GRB_Callback_MIPSOL
    = Some (Raise TypeError, two_loops_state) /\
  m_lazy (self_m two_loops_state) = [].
Proof. split_and!; vm_compute; reflexivity. Qed.

(** ** Snapshots that obey the degree constraints *)

Lemma selb_selected self i j : selb self i j = true <-> selected self i j.
Proof. apply gt_half_spec. Qed.

Section FilterLength.
Context {A : Type} (P : A -> Prop) `{!forall a, Decision (P a)}.

Lemma filter_length_one (l : list A) (a : A) :
  a ∈ l -> P a -> (1 <= length (filter P l))%nat.
Proof.
  intros Ha HPa.
  assert (Hin : a ∈ filter P l) by (by apply list_elem_of_filter).
  destruct (filter P l); [by apply elem_of_nil in Hin | simpl; lia].
Qed.

Lemma filter_length_two (l : list A) (a b : A) :
  NoDup l -> a ∈ l -> b ∈ l -> a <> b -> P a -> P b ->
  (2 <= length (filter P l))%nat.
Proof.
  intros Hnd Ha Hb Hab HPa HPb.
  assert (Hsub : [a; b] ⊆+ filter P l).
  { apply NoDup_submseteq.
    - apply NoDup_cons. split; [by intros ->%list_elem_of_singleton|].
      apply NoDup_singleton.
    - intros c [-> | ->%list_elem_of_singleton]%elem_of_cons;
        by apply list_elem_of_filter. }
  by apply submseteq_length in Hsub.
Qed.

Lemma filter_length_pos (l : list A) :
  (1 <= length (filter P l))%nat -> exists a, a ∈ l /\ P a.
Proof.
  intros Hlen. destruct (filter P l) as [|a rest] eqn:E; [simpl in Hlen; lia|].
  assert (Hin : a ∈ filter P l) by (rewrite E; by left).
  apply list_elem_of_filter in Hin as [? ?]. eauto.
Qed.
End FilterLength.

Section Feasible.
Variable self : BranchAndCutIntegerSolver.
Hypothesis Hwf : solver_wf self.

Local Abbreviation n := (tsp_n (self_tsp self)).

Lemma next_vertex_selected (v c : Z) :
  next_vertex self (Some v) = Ok (Some c) ->
  0 <= v < n /\ 0 <= c < n /\ c <> v /\ selected self v c.
Proof.
  intros Hrun.
  destruct (next_vertex_in_range self v c Hwf Hrun) as (Hv & Hc & Hne).
  apply next_vertex_from_Some in Hrun as (_ & _ & _ & _ & Hsel). done.
Qed.

Lemma selected_in_degree (q c : Z) :
  0 <= q < n -> q <> c -> selected self q c -> (1 <= in_degree self c)%nat.
Proof.
  intros Hq Hne Hsel. unfold in_degree.
  apply (filter_length_one _ _ q); [by apply elem_of_vertices|].
  split; [done | by apply selb_selected].
Qed.

Hypothesis Hread : readable self = true.

(** A vertex with an outgoing selected arc has a successor. *)
Lemma out_degree_successor (v : Z) :
  0 <= v < n -> (1 <= out_degree self v)%nat ->
  exists c, next_vertex self (Some v) = Ok (Some c).
Proof.
  intros Hv Hdeg.
  apply filter_length_pos in Hdeg as (j & Hj & Hne & Hsel).
  destruct (next_vertex_cases self v Hwf Hread Hv) as [(c & Hc & _) | [_ Hnone]];
    [eauto|].
  exfalso.
  apply (Hnone j); [by apply elem_of_vertices | done | by apply selb_selected].
Qed.

Hypothesis Hfeas : degree_feasible self.

Lemma degree_feasible_in_degree (c : Z) :
  0 <= c < n -> (in_degree self c <= 1)%nat.
Proof.
  intros Hc. destruct Hfeas as (_ & Hsink & Hflow & _ & Hsrc & Hout).
  destruct (decide (c = 0)) as [-> | Hc0]; [lia|].
  destruct (decide (c = n - 1)) as [-> | Hcn]; [lia|].
  rewrite <- Hflow by lia. apply Hout. lia.
Qed.

Lemma degree_feasible_one_predecessor : one_predecessor self.
Proof.
  intros a b c Ha Hb.
  destruct (next_vertex_selected a c Ha) as (Hra & Hc & Hca & Hsa).
  destruct (next_vertex_selected b c Hb) as (Hrb & _ & Hcb & Hsb).
  destruct (decide (a = b)) as [|Hab]; [done|]. exfalso.
  pose proof (degree_feasible_in_degree c Hc) as Hle.
  assert (2 <= in_degree self c)%nat; [|lia].
  unfold in_degree. apply (filter_length_two _ _ a b); try done.
  - unfold vertices, range. apply NoDup_seqZ.
  - by apply elem_of_vertices.
  - by apply elem_of_vertices.
  - split; [congruence | by apply selb_selected].
  - split; [congruence | by apply selb_selected].
Qed.

(** A vertex the walk enters is not the source, and, unless it is the
    sink, has a successor. *)
Lemma degree_feasible_step (q c : Z) :
  next_vertex self (Some q) = Ok (Some c) ->
  c <> 0 /\
  (c <> n - 1 -> exists c', next_vertex self (Some c) = Ok (Some c')).
Proof.
  intros Hq.
  destruct (next_vertex_selected q c Hq) as (Hrq & Hc & Hcq & Hsel).
  pose proof (selected_in_degree q c Hrq (not_eq_sym Hcq) Hsel) as Hin.
  destruct Hfeas as (_ & _ & Hflow & _ & Hsrc & _).
  assert (Hc0 : c <> 0) by (intros ->; lia).
  split; [done|]. intros Hcn.
  apply out_degree_successor; [done|]. rewrite Hflow; lia.
Qed.

(** The loop of the walk from the source neither raises nor comes back to
    the source: when it exits, the sink was appended last. *)
Lemma tour_loop_feasible :
  forall fuel (tour : list (option Z)) (p c : Z) r,
    next_vertex self (Some p) = Ok (Some c) ->
    tour_loop fuel self 0 tour (Some c) = Some r ->
    exists t, r = Ok (tour ++ t ++ [Some (n - 1)]).
Proof.
  induction fuel as [|fuel IH]; intros tour p c r Hp;
    rewrite tour_loop_unfold;
    destruct (degree_feasible_step p c Hp) as [Hc0 Hsucc];
    rewrite bool_decide_eq_false_2 by congruence; [done|].
  case_bool_decide as Hsink.
  - intros [= <-]. exists []. by rewrite Hsink.
  - destruct Hsucc as [c' Hc']; [congruence|]. rewrite Hc'.
    intros Hrun. destruct (IH _ c c' r Hc' Hrun) as [t ->].
    exists (Some c :: t). by rewrite <- app_assoc.
Qed.

(** On a degree-feasible snapshot the walk from the source returns a path
    from [0] to the sink, given [n] runs of the loop or more. *)
Lemma tour_from_source (fuel : nat) :
  (Z.to_nat n <= fuel)%nat ->
  exists t, tour_starting_at fuel self 0
            = Some (Ok (Some 0 :: t ++ [Some (n - 1)])).
Proof.
  intros Hfuel.
  assert (Hn : 0 <= 0 < n).
  { destruct Hfeas as (Hsrc & _). destruct (decide (0 < n)); [lia|].
    unfold out_degree, vertices, range in Hsrc.
    rewrite seqZ_nil in Hsrc by lia. done. }
  destruct (out_degree_successor 0 Hn) as [c Hc].
  { destruct Hfeas as (-> & _). lia. }
  unfold tour_starting_at. rewrite Hc.
  destruct (tour_loop_from_start self 0 c fuel Hwf
              degree_feasible_one_predecessor Hn Hc Hfuel) as (r & Hrun & _).
  rewrite Hrun.
  destruct (tour_loop_feasible fuel _ 0 c r Hc Hrun) as [t ->].
  by exists t.
Qed.
End Feasible.

(** ** [solve] *)

Lemma optimized_wf optimize pick fuel self final :
  solver_wf self -> optimized optimize pick fuel self = Ok final -> solver_wf final.
Proof.
  intros Hwf. unfold optimized. destruct (optimize _ _) as [m|e]; [|done].
  intros [= <-]. by do 2 apply solver_wf_with_m.
Qed.

Lemma optimized_tsp optimize pick fuel self final :
  optimized optimize pick fuel self = Ok final -> self_tsp final = self_tsp self.
Proof.
  unfold optimized. destruct (optimize _ _) as [m|e]; [|done]. by intros [= <-].
Qed.




(** ** [__build_model] *)

Lemma sum_over_perm (val : Z * Z -> Q) (l k : list (Z * Z)) :
  l ≡ₚ k -> (sum_over val l == sum_over val k)%Q.
Proof.
  induction 1 as [|a l k _ IH|a b l|l k1 k2 _ IH1 _ IH2]; simpl.
  - reflexivity.
  - by rewrite IH.
  - ring.
  - by rewrite IH1.
Qed.

(** The variables [x.sum(v, '*')] collects are those of the arcs leaving
    [v]; likewise [x.sum('*', v)] and the arcs entering [v]. *)
Lemma tupledict_sum_out self (v : Z) :
  solver_wf self ->
  0 <= v < tsp_n (self_tsp self) \/ tsp_n (self_tsp self) <= 0 ->
  le_vars (tupledict_sum (self_x self) (Is v) Wild)
    ≡ₚ (fun j => (v, j)) <$> filter (fun j => j <> v) (vertices (tsp_n (self_tsp self))).
Proof.
  intros Hwf Hv. unfold tupledict_sum. cbn [le_vars]. apply NoDup_Permutation.
  - apply NoDup_elements.
  - apply (NoDup_fmap_2 _). apply NoDup_filter. unfold vertices, range. apply NoDup_seqZ.
  - intros [a b].
    rewrite elem_of_elements, elem_of_filter, (solver_wf_key self a b Hwf).
    rewrite list_elem_of_fmap. simpl. rewrite andb_true_r, Z.eqb_eq. split.
    + intros (<- & Ha & Hb & Hab). exists b. split; [done|].
      apply list_elem_of_filter. split; [congruence | by apply elem_of_vertices].
    + intros (j & [= -> ->] & [Hne Hj%elem_of_vertices]%list_elem_of_filter).
      split_and!; try done; lia.
Qed.

Lemma tupledict_sum_in self (v : Z) :
  solver_wf self ->
  0 <= v < tsp_n (self_tsp self) \/ tsp_n (self_tsp self) <= 0 ->
  le_vars (tupledict_sum (self_x self) Wild (Is v))
    ≡ₚ (fun k => (k, v)) <$> filter (fun k => k <> v) (vertices (tsp_n (self_tsp self))).
Proof.
  intros Hwf Hv. unfold tupledict_sum. cbn [le_vars]. apply NoDup_Permutation.
  - apply NoDup_elements.
  - apply (NoDup_fmap_2 _). apply NoDup_filter. unfold vertices, range. apply NoDup_seqZ.
  - intros [a b].
    rewrite elem_of_elements, elem_of_filter, (solver_wf_key self a b Hwf).
    rewrite list_elem_of_fmap. simpl. rewrite Z.eqb_eq. split.
    + intros (<- & Ha & Hb & Hab). exists a. split; [done|].
      apply list_elem_of_filter. split; [congruence | by apply elem_of_vertices].
    + intros (j & [= -> ->] & [Hne Hj%elem_of_vertices]%list_elem_of_filter).
      split_and!; try done; lia.
Qed.

Lemma eval_out self val (v : Z) :
  solver_wf self ->
  0 <= v < tsp_n (self_tsp self) \/ tsp_n (self_tsp self) <= 0 ->
  (eval val (tupledict_sum (self_x self) (Is v) Wild)
   == out_flow val (tsp_n (self_tsp self)) v)%Q.
Proof.
  intros Hwf Hv. unfold eval, out_flow.
  rewrite (sum_over_perm val _ _ (tupledict_sum_out self v Hwf Hv)).
  simpl. ring.
Qed.

Lemma eval_in self val (v : Z) :
  solver_wf self ->
  0 <= v < tsp_n (self_tsp self) \/ tsp_n (self_tsp self) <= 0 ->
  (eval val (tupledict_sum (self_x self) Wild (Is v))
   == in_flow val (tsp_n (self_tsp self)) v)%Q.
Proof.
  intros Hwf Hv. unfold eval, in_flow.
  rewrite (sum_over_perm val _ _ (tupledict_sum_in self v Hwf Hv)).
  simpl. ring.
Qed.

Lemma eval_num val (c : Z) : (eval val (num c) == inject_Z c)%Q.
Proof. unfold eval. simpl. ring. Qed.

(** C7.  The base model [__init__] builds from an instance holds, row for
    row and in this order, the constraints out-degree(0) = 1,
    in-degree(n-1) = 1, out-degree(v) = in-degree(v) for the interior
    vertices, out-degree(n-1) = 0, in-degree(0) = 0 and out-degree(v) <= 1
    for every vertex, and no other; its variables are one binary variable
    per arc with the arc's cost as objective coefficient, and the objective
    is minimised. *)
Theorem base_model_built (tsp : TSPIntance) :
  inst_wf tsp ->
  let self := BranchAndCutIntegerSolver_init tsp in
  Forall2 (fun c row => forall val, holds val c <-> row val)
          (m_constrs (self_m self)) (base_model_rows (tsp_n tsp)) /\
  (forall a, m_vars (self_m self) !! a
             = (fun c => {| var_obj := c; var_vtype := BINARY |}) <$> tsp_cost tsp !! a) /\
  self_x self = arcs tsp /\
  m_sense (self_m self) = GRB_MINIMIZE /\
  m_lazy (self_m self) = [].
Proof.
  intros Hwf self.
  assert (Hs : solver_wf self) by (by apply solver_wf_init).
  split_and!; try reflexivity.
  - change (tsp_n tsp) with (tsp_n (self_tsp self)).
    set (n := tsp_n (self_tsp self)).
    change (m_constrs (self_m self)) with
      (((((([] ++ [{| lhs := tupledict_sum (self_x self) (Is 0) Wild;
                      sense := EQUAL; rhs := num 1 |}])
           ++ [{| lhs := tupledict_sum (self_x self) Wild (Is (n - 1));
                  sense := EQUAL; rhs := num 1 |}])
          ++ ((fun i => {| lhs := tupledict_sum (self_x self) (Is i) Wild;
                           sense := EQUAL;
                           rhs := tupledict_sum (self_x self) Wild (Is i) |})
                <$> range 1 (n - 1)))
         ++ [{| lhs := tupledict_sum (self_x self) (Is (n - 1)) Wild;
                sense := EQUAL; rhs := num 0 |}])
        ++ [{| lhs := tupledict_sum (self_x self) Wild (Is 0);
               sense := EQUAL; rhs := num 0 |}])
       ++ ((fun i => {| lhs := tupledict_sum (self_x self) (Is i) Wild;
                        sense := LESS_EQUAL; rhs := num 1 |})
             <$> vertices n)).
    rewrite <- !app_assoc.
    unfold base_model_rows. simpl app.
    assert (Qeq_out : forall v val, 0 <= v < n \/ n <= 0 ->
              Qeq (eval val (tupledict_sum (dom (tsp_cost tsp)) (Is v) Wild))
                  (out_flow val n v))
      by (intros; by apply (eval_out self)).
    assert (Qeq_in : forall v val, 0 <= v < n \/ n <= 0 ->
              Qeq (eval val (tupledict_sum (dom (tsp_cost tsp)) Wild (Is v)))
                  (in_flow val n v))
      by (intros; by apply (eval_in self)).
    repeat first
      [ apply Forall2_cons; split
      | apply Forall2_app ].
    + intros val. unfold holds. cbn [sense lhs rhs].
      by rewrite (Qeq_out 0), eval_num by lia.
    + intros val. unfold holds. cbn [sense lhs rhs].
      by rewrite (Qeq_in (n - 1)), eval_num by lia.
    + apply Forall2_fmap, Forall_Forall2_diag, Forall_forall.
      intros v Hv. unfold range in Hv. apply elem_of_seqZ in Hv.
      intros val. unfold holds. cbn [sense lhs rhs].
      by rewrite (Qeq_out v), (Qeq_in v) by lia.
    + intros val. unfold holds. cbn [sense lhs rhs].
      by rewrite (Qeq_out (n - 1)), eval_num by lia.
    + intros val. unfold holds. cbn [sense lhs rhs].
      by rewrite (Qeq_in 0), eval_num by lia.
    + apply Forall2_fmap, Forall_Forall2_diag, Forall_forall.
      intros v Hv%elem_of_vertices.
      intros val. unfold holds. cbn [sense lhs rhs].
      by rewrite (Qeq_out v), eval_num by (fold n in Hv; lia).
  - intros a. unfold self, BranchAndCutIntegerSolver_init. simpl.
    rewrite lookup_fmap, map_filter_id; [done|].
    intros k c Hk. simpl. unfold arcs. apply elem_of_dom. eauto.
Qed.

Lemma base_model_built_witness :
  Forall2 (fun c row => forall val, holds val c <-> row val)
          (m_constrs (self_m (BranchAndCutIntegerSolver_init tsp3)))
          (base_model_rows 3).
Proof. apply (base_model_built tsp3 tsp3_wf). Defined.

(* ================================================================= *)
(** * Further properties of the code *)

(** ** The order in which [__init__] hands out the costs *)

Lemma getitem_nonneg {A : Type} (l : list A) (k : Z) (a : A) :
  0 <= k -> getitem l k = Ok a -> l !! Z.to_nat k = Some a.
Proof.
  intros Hk. unfold getitem.
  destruct (k <? 0) eqn:E1; [lia|]. rewrite E1.
  destruct (l !! Z.to_nat k); [|done]. by intros [= ->].
Qed.

(** One run of the inner loop for the row [i]: the index advances by the
    number of columns other than [i], the keys outside the row keep their
    entry, and the column [j] gets the cost at the index reached when [j]
    comes up. *)
Lemma init_inner_values costs i js :
  NoDup js ->
  forall (c c' : gmap (Z * Z) Q) k k',
    0 <= k ->
    for_each (init_body costs i) (c, k) js = Ok (c', k') ->
    k' = k + others i js /\
    (forall a b, a <> i \/ b ∉ js \/ b = i -> c' !! (a, b) = c !! (a, b)) /\
    (forall pre j post, js = pre ++ j :: post -> j <> i ->
       c' !! (i, j) = costs !! Z.to_nat (k + others i pre)).
Proof.
  induction js as [|j0 js IH]; intros Hnd c c' k k' Hk Hrun.
  - injection Hrun as <- <-. split_and!; [simpl; lia | done |].
    intros pre j post Hsplit. by destruct pre.
  - apply NoDup_cons in Hnd as [Hfresh Hnd]. cbn [for_each init_body] in Hrun.
    pose proof (others_nonneg i js) as Hnn.
    destruct (i =? j0) eqn:E.
    + apply Z.eqb_eq in E. subst j0.
      destruct (IH Hnd c c' k k' Hk Hrun) as (Hk' & Hkeep & Hval).
      split_and!.
      * simpl. rewrite Z.eqb_refl. lia.
      * intros a b Hab. apply Hkeep.
        destruct Hab as [? | [Hb | ?]]; [by left | | by right; right].
        right; left. intros Hin. apply Hb. by right.
      * intros pre j post Hsplit Hji. destruct pre as [|p pre].
        -- injection Hsplit as <- _. done.
        -- injection Hsplit as <- Hsplit. simpl. rewrite Z.eqb_refl.
           by apply (Hval pre j post).
    + apply Z.eqb_neq in E.
      destruct (getitem costs k) as [q|e] eqn:Hq; [|done]. simpl in Hrun.
      apply getitem_nonneg in Hq; [|done].
      destruct (IH Hnd _ c' (k + 1) k' ltac:(lia) Hrun) as (Hk' & Hkeep & Hval).
      split_and!.
      * simpl. rewrite (proj2 (Z.eqb_neq _ _) E). lia.
      * intros a b Hab. rewrite Hkeep.
        -- apply lookup_insert_ne. intros [= <- <-].
           destruct Hab as [? | [Hb | ?]]; [done | | done]. apply Hb. by left.
        -- destruct Hab as [? | [Hb | ?]]; [by left | | by right; right].
           right; left. intros Hin. apply Hb. by right.
      * intros pre j post Hsplit Hji. destruct pre as [|p pre].
        -- injection Hsplit as <- _. rewrite Hkeep by (by right; left).
           rewrite lookup_insert_eq. simpl. by rewrite Z.add_0_r, Hq.
        -- injection Hsplit as <- Hsplit. simpl.
           rewrite (proj2 (Z.eqb_neq _ _) E).
           rewrite (Hval pre j post Hsplit Hji). do 2 f_equal. lia.
Qed.

Lemma init_outer_values costs js w :
  NoDup js ->
  forall vs : list Z,
    NoDup vs -> (forall i, i ∈ vs -> others i js = w) ->
    forall (c c' : gmap (Z * Z) Q) k k',
      0 <= k ->
      for_each (fun st i => for_each (init_body costs i) st js) (c, k) vs
        = Ok (c', k') ->
      (forall a b, a ∉ vs -> c' !! (a, b) = c !! (a, b)) /\
      (forall prei i posti prej j postj,
         vs = prei ++ i :: posti -> js = prej ++ j :: postj -> j <> i ->
         c' !! (i, j)
         = costs !! Z.to_nat (k + Z.of_nat (length prei) * w + others i prej)).
Proof.
  intros Hjs. induction vs as [|i0 vs IH]; intros Hnd Hw c c' k k' Hk Hrun.
  - injection Hrun as <- <-. split; [done|].
    intros prei i posti prej j postj Hsplit. by destruct prei.
  - apply NoDup_cons in Hnd as [Hfresh Hnd]. cbn [for_each] in Hrun.
    destruct (for_each (init_body costs i0) (c, k) js) as [[c1 k1]|e] eqn:Hrow;
      [|done].
    destruct (init_inner_values costs i0 js Hjs c c1 k k1 Hk Hrow)
      as (-> & Hkeep1 & Hval1).
    assert (Hw0 : others i0 js = w) by (apply Hw; by left).
    pose proof (others_nonneg i0 js) as Hnn.
    assert (Hw' : forall i, i ∈ vs -> others i js = w)
      by (intros i Hi; apply Hw; by right).
    destruct (IH Hnd Hw' c1 c' (k + others i0 js) k' ltac:(lia) Hrun)
      as (Hkeep & Hval).
    split.
    + intros a b Ha. rewrite Hkeep by (intros ?; apply Ha; by right).
      apply Hkeep1. left. intros ->. apply Ha. by left.
    + intros prei i posti prej j postj Hsplit Hsplitj Hji.
      destruct prei as [|p prei].
      * injection Hsplit as <- _. rewrite Hkeep by done.
        rewrite (Hval1 prej j postj Hsplitj Hji). do 2 f_equal. simpl. lia.
      * injection Hsplit as <- Hsplit.
        rewrite (Hval prei i posti prej j postj Hsplit Hsplitj Hji).
        do 2 f_equal. rewrite Hw0. simpl length. lia.
Qed.

Lemma vertices_split_at n v :
  0 <= v < n -> vertices n = seqZ 0 v ++ v :: seqZ (v + 1) (n - v - 1).
Proof.
  intros Hv. unfold vertices, range.
  replace (n - 0) with (v + (n - v)) by lia.
  rewrite seqZ_app by lia. f_equal.
  rewrite seqZ_cons by lia. simpl. repeat (f_equal; try lia).
Qed.

Lemma others_below i j :
  0 <= j -> others i (seqZ 0 j) = if bool_decide (0 <= i < j) then j - 1 else j.
Proof.
  intros Hj. replace j with (Z.of_nat (Z.to_nat j)) at 1 by lia.
  rewrite others_seqZ_nat. repeat case_bool_decide; lia.
Qed.

Lemma cost_index (x y costs : list Q) (tsp : TSPIntance) (i j : Z) :
  TSPIntance_init x y costs = Ok tsp ->
  let n := Z.of_nat (length x) in
  0 <= i < n -> 0 <= j < n -> i <> j ->
  tsp_cost tsp !! (i, j)
  = costs !! Z.to_nat (i * (n - 1) + (if j <? i then j else j - 1)).
Proof.
  intros Hrun n Hi Hj Hij. unfold TSPIntance_init in Hrun.
  destruct (negb _); [done|]. fold n in Hrun.
  destruct (for_each _ _ _) as [[c k]|e] eqn:Hloops; [|done].
  injection Hrun as <-. cbn [tsp_cost].
  destruct (init_outer_values costs (vertices n) (n - 1)
              ltac:(apply NoDup_seqZ) (vertices n) ltac:(apply NoDup_seqZ)
              (fun v Hv => others_vertices v n (proj1 (elem_of_vertices v n) Hv))
              ∅ c 0 k ltac:(lia) Hloops) as (_ & Hval).
  rewrite (Hval _ i _ _ j _ (vertices_split_at n i Hi) (vertices_split_at n j Hj))
    by congruence.
  do 2 f_equal. rewrite length_seqZ, others_below by lia.
  destruct (j <? i) eqn:E; case_bool_decide; lia.
Qed.

(** X1.  The costs are handed out in lexicographic order of the arcs: the
    arc [(i, j)] gets the entry of the cost list at index
    [i*(n-1) + j], less one when [j] lies beyond [i]. *)
Theorem cost_order (x y costs : list Q) (tsp : TSPIntance) (i j : Z) :
  TSPIntance_init x y costs = Ok tsp ->
  let n := Z.of_nat (length x) in
  0 <= i < n -> 0 <= j < n -> i <> j ->
  tsp_cost tsp !! (i, j)
  = costs !! Z.to_nat (i * (n - 1) + (if j <? i then j else j - 1)).
Proof. apply cost_index. Qed.

Lemma cost_order_witness :
  tsp_cost tsp3 !! (2, 0) = costs3 !! Z.to_nat (2 * (3 - 1) + 0).
Proof.
  apply (cost_order coords3 coords3 costs3 tsp3 2 0).
  - vm_compute. reflexivity.
  - simpl. lia.
  - simpl. lia.
  - lia.
Defined.

(** ** [arcs] and [random] *)

Lemma length_others i (js : list Z) :
  Z.of_nat (length (filter (fun j => j <> i) js)) = others i js.
Proof.
  induction js as [|j js IH]; [done|]. simpl others.
  destruct (i =? j) eqn:E.
  - apply Z.eqb_eq in E. subst j. rewrite filter_cons_False by (intros ?; done). lia.
  - apply Z.eqb_neq in E. rewrite filter_cons_True by congruence. simpl. lia.
Qed.

Lemma elem_of_arc_list n i j :
  (i, j) ∈ arc_list n <-> 0 <= i < n /\ 0 <= j < n /\ i <> j.
Proof.
  unfold arc_list. rewrite list_elem_of_bind. split.
  - intros (i' & Hin & Hi'%elem_of_vertices).
    apply list_elem_of_fmap in Hin as (j' & [= -> ->] & Hj').
    apply list_elem_of_filter in Hj' as [Hne Hj'%elem_of_vertices]. done.
  - intros (Hi & Hj & Hne). exists i. split; [|by apply elem_of_vertices].
    apply list_elem_of_fmap. exists j. split; [done|].
    apply list_elem_of_filter. split; [congruence | by apply elem_of_vertices].
Qed.

Lemma NoDup_arc_list n : NoDup (arc_list n).
Proof.
  unfold arc_list. apply NoDup_bind.
  - intros i1 i2 [a b] _ _ (j1 & [= -> ->] & _)%list_elem_of_fmap
      (j2 & [= -> _] & _)%list_elem_of_fmap. done.
  - intros i _. apply (NoDup_fmap_2 _). apply NoDup_filter, NoDup_seqZ.
  - apply NoDup_seqZ.
Qed.

Lemma length_bind_const {A B : Type} (f : A -> list B) (l : list A) (w : Z) :
  (forall a, a ∈ l -> Z.of_nat (length (f a)) = w) ->
  Z.of_nat (length (l ≫= f)) = Z.of_nat (length l) * w.
Proof.
  induction l as [|a l IH]; intros Hw; [simpl; lia|].
  change ((a :: l) ≫= f) with (f a ++ (l ≫= f)).
  rewrite length_app, Nat2Z.inj_add, IH by (intros; apply Hw; by right).
  rewrite (Hw a) by (by left). simpl length. lia.
Qed.

Lemma length_arc_list n : 0 <= n -> Z.of_nat (length (arc_list n)) = n * (n - 1).
Proof.
  intros Hn. unfold arc_list. rewrite (length_bind_const _ _ (n - 1)).
  - rewrite length_vertices. lia.
  - intros i Hi%elem_of_vertices.
    rewrite length_fmap, length_others. by apply others_vertices.
Qed.

Lemma arcs_count (x y costs : list Q) (tsp : TSPIntance) :
  TSPIntance_init x y costs = Ok tsp ->
  let n := Z.of_nat (length x) in
  (forall i j, (i, j) ∈ arcs tsp <-> 0 <= i < n /\ 0 <= j < n /\ i <> j) /\
  Z.of_nat (size (arcs tsp)) = n * (n - 1).
Proof.
  intros Hrun n.
  assert (Hlen : n * (n - 1) <= Z.of_nat (length costs)).
  { destruct (decide (n * (n - 1) <= Z.of_nat (length costs))); [done|].
    destruct (decide (length x = length y)) as [Hxy | Hxy].
    - rewrite TSPIntance_init_short in Hrun; [done | done | fold n; lia].
    - by rewrite TSPIntance_init_mismatch in Hrun. }
  assert (Hxy : length x = length y).
  { destruct (decide (length x = length y)); [done|].
    by rewrite TSPIntance_init_mismatch in Hrun. }
  destruct (TSPIntance_init_ok x y costs Hxy Hlen) as (tsp' & Hrun' & Hn & _ & _ & Hwf).
  rewrite Hrun in Hrun'. injection Hrun' as <-. fold n in Hn.
  assert (Hkeys : forall i j, (i, j) ∈ arcs tsp <-> 0 <= i < n /\ 0 <= j < n /\ i <> j).
  { intros i j. unfold arcs. rewrite elem_of_dom, <- Hn. apply Hwf. }
  split; [exact Hkeys|].
  assert (Heq : arcs tsp = list_to_set (arc_list n)).
  { apply set_eq. intros [i j]. rewrite elem_of_list_to_set, elem_of_arc_list.
    apply Hkeys. }
  rewrite Heq, size_list_to_set by apply NoDup_arc_list.
  apply length_arc_list. lia.
Qed.

(** X2.  The arcs of a constructed instance are the ordered pairs of
    distinct vertices, and there are [n*(n-1)] of them. *)
Theorem arcs_of_instance (x y costs : list Q) (tsp : TSPIntance) :
  TSPIntance_init x y costs = Ok tsp ->
  let n := Z.of_nat (length x) in
  (forall i j, (i, j) ∈ arcs tsp <-> 0 <= i < n /\ 0 <= j < n /\ i <> j) /\
  Z.of_nat (size (arcs tsp)) = n * (n - 1).
Proof. apply arcs_count. Qed.

Lemma arcs_of_instance_witness : Z.of_nat (size (arcs tsp3)) = 3 * (3 - 1).
Proof.
  apply (arcs_of_instance coords3 coords3 costs3 tsp3).
  vm_compute. reflexivity.
Defined.

Lemma length_draws uniform a b first count :
  Z.of_nat (length (draws uniform a b first count)) = Z.max 0 count.
Proof. unfold draws. rewrite length_fmap, length_seq. lia. Qed.

(** X3.  [random(n)] builds an instance for every [n], with [n] vertices
    (none when [n] is negative); when the random source keeps to the bounds
    it is given, every cost lies between [-10] and [10]. *)
Theorem random_instance (uniform : Q -> Q -> nat -> Q) (n : Z) :
  exists tsp,
    TSPIntance_random uniform n = Ok tsp /\
    tsp_n tsp = Z.max 0 n /\ inst_wf tsp /\
    ((forall a b k, (a <= b)%Q -> (a <= uniform a b k <= b)%Q) ->
     forall i j c, tsp_cost tsp !! (i, j) = Some c -> (-10 <= c <= 10)%Q).
Proof.
  unfold TSPIntance_random.
  set (x := draws uniform 0 10 0 n).
  set (y := draws uniform 0 10 (length x) n).
  set (costs := draws uniform (-10) 10 (length x + length y) (n * (n - 1))).
  assert (Hx : Z.of_nat (length x) = Z.max 0 n) by apply length_draws.
  assert (Hy : Z.of_nat (length y) = Z.max 0 n) by apply length_draws.
  assert (Hc : Z.of_nat (length costs) = Z.max 0 (n * (n - 1))) by apply length_draws.
  destruct (TSPIntance_init_ok x y costs) as (tsp & Hrun & Hn & _ & _ & Hwf);
    [lia | nia |].
  exists tsp. split_and!; [done | lia | done |].
  intros Hbounds i j c Hlook.
  assert (Hij : 0 <= i < Z.of_nat (length x) /\ 0 <= j < Z.of_nat (length x) /\ i <> j).
  { rewrite <- Hn. apply Hwf. eauto. }
  destruct Hij as (Hi & Hj & Hne).
  rewrite (cost_index x y costs tsp i j Hrun Hi Hj Hne) in Hlook.
  apply list_elem_of_lookup_2 in Hlook. unfold costs, draws in Hlook.
  apply list_elem_of_fmap in Hlook as (k & -> & _). by apply Hbounds.
Qed.

Lemma random_instance_witness :
  exists tsp,
    TSPIntance_random (fun a _ _ => a) 3 = Ok tsp /\
    forall i j c, tsp_cost tsp !! (i, j) = Some c -> (-10 <= c <= 10)%Q.
Proof.
  destruct (random_instance (fun a _ _ => a) 3) as (tsp & Hrun & _ & _ & Hbounds).
  exists tsp. split; [exact Hrun|].
  apply Hbounds. intros a b k Hab. split; [apply Qle_refl | exact Hab].
Defined.

(** ** The shape of a walk that returns *)

Lemma follows_snoc self (l : list (option Z)) (p q : option Z) :
  follows self (l ++ [p]) -> next_vertex self p = Ok q ->
  follows self ((l ++ [p]) ++ [q]).
Proof.
  intros Hl Hpq k a b Ha Hb.
  destruct (decide (S k < length (l ++ [p]))%nat) as [Hlt | Hge].
  - rewrite lookup_app_l in Ha by lia. rewrite lookup_app_l in Hb by lia.
    by apply (Hl k).
  - assert (Hk : S k = length (l ++ [p])).
    { apply lookup_lt_Some in Hb. rewrite length_app in Hb. simpl in Hb. lia. }
    rewrite lookup_app_r in Hb by lia.
    replace (S k - length (l ++ [p]))%nat with 0%nat in Hb by lia.
    injection Hb as <-.
    rewrite lookup_app_l in Ha by lia. rewrite length_app in Hk. simpl in Hk.
    rewrite lookup_app_r in Ha by lia.
    replace (k - length l)%nat with 0%nat in Ha by lia.
    injection Ha as <-. done.
Qed.

(** [__next_vertex(None)] raises, or returns [None] when there is no
    vertex at all. *)
Lemma next_vertex_of_None self :
  next_vertex self None = Raise KeyError \/ next_vertex self None = Ok None.
Proof.
  unfold next_vertex. destruct (vertices _) as [|j js]; [by right | by left].
Qed.

(** Once [current] is [None] the loop returns no tour. *)
Lemma tour_loop_stuck self (i : Z) (fuel : nat) :
  forall (tour t : list (option Z)),
    tour_loop fuel self i tour None <> Some (Ok t).
Proof.
  induction fuel as [|fuel IH]; intros tour t; rewrite tour_loop_unfold;
    rewrite bool_decide_eq_false_2 by done; [done|].
  rewrite bool_decide_eq_false_2 by done.
  destruct (next_vertex_of_None self) as [-> | ->]; [done | apply IH].
Qed.

Lemma tour_loop_chain self (i : Z) (fuel : nat) :
  forall (tour : list (option Z)) (p current : option Z) (t : list (option Z)),
    follows self (tour ++ [p]) -> Forall is_Some (tour ++ [p]) ->
    next_vertex self p = Ok current ->
    tour_loop fuel self i (tour ++ [p]) current = Some (Ok t) ->
    follows self t /\ Forall is_Some t /\ (tour ++ [p]) `prefix_of` t /\
    exists e, last t = Some e /\
              (e = Some (tsp_n (self_tsp self) - 1) \/
               next_vertex self e = Ok (Some i)).
Proof.
  induction fuel as [|fuel IH]; intros tour p current t Hchain Hsome Hnext;
    (destruct current as [c|]; [|intros Hrun; by apply tour_loop_stuck in Hrun]);
    rewrite tour_loop_unfold; case_bool_decide as Hstop; try done.
  - intros [= <-]. split_and!; try done. exists p. rewrite last_snoc.
    split; [done|]. right. congruence.
  - intros [= <-]. split_and!; try done. exists p. rewrite last_snoc.
    split; [done|]. right. congruence.
  - assert (Hchain' : follows self ((tour ++ [p]) ++ [Some c]))
      by (by apply follows_snoc).
    assert (Hsome' : Forall is_Some ((tour ++ [p]) ++ [Some c])).
    { apply Forall_app. split; [done|]. apply Forall_singleton. eauto. }
    case_bool_decide as Hsink.
    + intros [= <-]. split_and!; try done.
      * by apply prefix_app_r.
      * exists (Some c). rewrite last_snoc. split; [done|]. by left.
    + destruct (next_vertex self (Some c)) as [current'|e] eqn:Hc; [|done].
      intros Hrun.
      destruct (IH (tour ++ [p]) (Some c) current' t Hchain' Hsome' Hc Hrun)
        as (? & ? & Hpre & ?).
      split_and!; try done.
      etrans; [|exact Hpre]. by apply prefix_app_r.
Qed.

Lemma tour_walk_shape (fuel : nat) (self : BranchAndCutIntegerSolver) (i : Z)
    (t : list (option Z)) :
  tour_starting_at fuel self i = Some (Ok t) ->
  head t = Some (Some i) /\
  Forall is_Some t /\
  follows self t /\
  ((t = [Some i] /\ next_vertex self (Some i) = Ok None) \/
   last t = Some (Some (tsp_n (self_tsp self) - 1)) \/
   exists e, last t = Some e /\ next_vertex self e = Ok (Some i)).
Proof.
  unfold tour_starting_at.
  destruct (next_vertex self (Some i)) as [[c|]|e] eqn:Hnext; [| |done].
  - intros Hrun.
    assert (Hstart : follows self ([] ++ [Some i]))
      by (intros k a b Ha Hb; by destruct k).
    assert (Hsome0 : Forall is_Some ([] ++ [Some i : option Z]))
      by (apply Forall_singleton; eauto).
    destruct (tour_loop_chain self i fuel [] (Some i) (Some c) t Hstart Hsome0
                Hnext Hrun) as (Hchain & Hsome & Hpre & e & Hlast & Hend).
    split_and!; try done.
    + destruct Hpre as [rest ->]. done.
    + destruct Hend as [-> | Hback]; [by right; left | right; right; eauto].
  - intros [= <-]. split_and!.
    + done.
    + apply Forall_singleton. eauto.
    + intros k a b Ha Hb. by destruct k.
    + by left.
Qed.

(** X4.  A tour [__tour_starting_at(i)] returns starts at [i], holds
    vertices only, and follows the successor function step by step; it is
    the lone start without successor, or ends at the sink, or its last
    vertex has [i] as successor. *)
Theorem tour_shape (fuel : nat) (self : BranchAndCutIntegerSolver) (i : Z)
    (t : list (option Z)) :
  tour_starting_at fuel self i = Some (Ok t) ->
  head t = Some (Some i) /\
  Forall is_Some t /\
  follows self t /\
  ((t = [Some i] /\ next_vertex self (Some i) = Ok None) \/
   last t = Some (Some (tsp_n (self_tsp self) - 1)) \/
   exists e, last t = Some e /\ next_vertex self e = Ok (Some i)).
Proof. apply tour_walk_shape. Qed.

Lemma tour_shape_witness :
  follows path_state [Some 0; Some 1; Some 2] /\
  last [Some 0; Some 1; Some 2] = Some (Some (tsp_n (self_tsp path_state) - 1)).
Proof.
  destruct (tour_shape 3 path_state 0 [Some 0; Some 1; Some 2])
    as (_ & _ & Hchain & _); [vm_compute; reflexivity|].
  split; [exact Hchain | reflexivity].
Defined.

(** ** The scan and its test *)

Lemma getitem_last {A : Type} (l : list A) (a : A) : getitem (l ++ [a]) (-1) = Ok a.
Proof.
  unfold getitem. rewrite length_app. cbn [length].
  change (-1 <? 0) with true. cbv iota.
  rewrite (proj2 (Z.ltb_ge _ _)) by lia.
  replace (Z.to_nat (-1 + Z.of_nat (length l + 1))) with (length l) by lia.
  by rewrite list_lookup_middle.
Qed.

Lemma getitem_minus_one {A : Type} (l : list A) (a : A) :
  last l = Some a -> getitem l (-1) = Ok a.
Proof.
  intros Hlast. destruct l as [|b l] using rev_ind; [done|].
  rewrite last_snoc in Hlast. injection Hlast as ->. apply getitem_last.
Qed.

Lemma stops_scan_walk (fuel : nat) (self : BranchAndCutIntegerSolver)
    (start : Z) (t : list (option Z)) :
  tour_starting_at fuel self start = Some (Ok t) ->
  stops_scan self start t
  = Ok (bool_decide (t = [Some start] \/
                     last t = Some (Some (tsp_n (self_tsp self) - 1)))).
Proof.
  intros Hrun. destruct (tour_walk_shape fuel self start t Hrun) as (Hhead & _ & _ & _).
  destruct t as [|e0 rest]; [done|]. injection Hhead as ->.
  unfold stops_scan. case_bool_decide as Hone.
  - by rewrite bool_decide_eq_true_2 by (by left).
  - destruct (last (Some start :: rest)) as [e|] eqn:Hlast.
    + rewrite (getitem_minus_one _ e Hlast). simpl.
      case_bool_decide as Hsink.
      * subst e. by rewrite bool_decide_eq_true_2 by (by right).
      * destruct rest as [|e1 rest]; [by destruct Hone|].
        rewrite (proj2 (Z.ltb_ge _ _)) by (simpl length; lia).
        rewrite bool_decide_eq_false_2; [done|].
        intros [? | [= ?]]; [done | by subst].
    + by destruct rest using rev_ind; [|rewrite app_comm_cons, last_snoc in Hlast].
Qed.

(** X5.  On a tour the walk returned, the test of [__find_subtours] does
    not raise, and it holds exactly when the tour is the lone start or ends
    at the sink: its third part, [len(subtour) < 2], adds nothing. *)
Theorem stops_scan_of_walk (fuel : nat) (self : BranchAndCutIntegerSolver)
    (start : Z) (t : list (option Z)) :
  tour_starting_at fuel self start = Some (Ok t) ->
  stops_scan self start t
  = Ok (bool_decide (t = [Some start] \/
                     last t = Some (Some (tsp_n (self_tsp self) - 1)))).
Proof. apply stops_scan_walk. Qed.

Lemma stops_scan_of_walk_witness :
  stops_scan path_state 0 [Some 0; Some 1; Some 2] = Ok true.
Proof.
  rewrite (stops_scan_of_walk 3 path_state 0); [|vm_compute; reflexivity].
  vm_compute. reflexivity.
Defined.

(** X6.  The callback [solve] registers never changes the model: whatever
    the event and the candidate, no lazy constraint is submitted. *)
Theorem solve_callback_submits_nothing (pick : gset Z -> Z) (fuel : nat)
    (self : BranchAndCutIntegerSolver) (where_ : Z) (m m' : Model)
    (r : result unit) :
  solve_callback pick fuel self where_ m = Some (r, m') -> m' = m.
Proof.
  unfold solve_callback.
  destruct (find_subtours _ _ _ _) as [[r' self']|] eqn:Hscan; [|done].
  intros [= _ <-]. by rewrite (find_subtours_state _ _ _ _ _ _ Hscan).
Qed.

Lemma solve_callback_submits_nothing_witness :
  match solve_callback pick_min 6 two_loops_state GRB_Callback_MIPSOL
                       (self_m two_loops_state) with
  | Some (_, m') => m' = self_m two_loops_state
  | None => True
  end.
Proof.
  destruct (solve_callback _ _ _ _ _) as [[r m']|] eqn:Hcall; [|exact I].
  exact (solve_callback_submits_nothing _ _ _ _ _ _ _ Hcall).
Defined.

(** ** Walks on snapshots that obey the degree constraints *)

Section FeasibleWalk.
Variable self : BranchAndCutIntegerSolver.
Hypothesis Hwf : solver_wf self.
Hypothesis Hread : readable self = true.
Hypothesis Hfeas : degree_feasible self.
Variable i : Z.

Lemma tour_loop_returns :
  forall fuel (tour : list (option Z)) (p c : Z) r,
    next_vertex self (Some p) = Ok (Some c) ->
    tour_loop fuel self i tour (Some c) = Some r ->
    exists t, r = Ok t.
Proof.
  induction fuel as [|fuel IH]; intros tour p c r Hp;
    rewrite tour_loop_unfold; case_bool_decide as Hstop.
  - intros [= <-]. eauto.
  - done.
  - intros [= <-]. eauto.
  - destruct (degree_feasible_step self Hwf Hread Hfeas p c Hp) as [_ Hsucc].
    case_bool_decide as Hsink; [intros [= <-]; eauto|].
    destruct Hsucc as [c' Hc']; [congruence|]. rewrite Hc'. by apply (IH _ c).
Qed.

Lemma tour_returns (fuel : nat) :
  0 <= i < tsp_n (self_tsp self) ->
  (Z.to_nat (tsp_n (self_tsp self)) <= fuel)%nat ->
  exists t, tour_starting_at fuel self i = Some (Ok t).
Proof.
  intros Hi Hfuel. unfold tour_starting_at.
  destruct (next_vertex_no_raise self i Hwf Hread Hi) as [[c|] Hnext]; rewrite Hnext;
    [|eauto].
  destruct (tour_loop_from_start self i c fuel Hwf
              (degree_feasible_one_predecessor self Hwf Hfeas) Hi Hnext Hfuel)
    as (r & Hrun & _).
  rewrite Hrun. destruct (tour_loop_returns fuel _ i c r Hnext Hrun) as [t ->].
  eauto.
Qed.
End FeasibleWalk.

Lemma path_state_feasible : degree_feasible path_state.
Proof.
  split_and!; try (vm_compute; reflexivity).
  - intros v Hv. simpl in Hv. assert (v = 1) as -> by lia. vm_compute. reflexivity.
  - intros v Hv. simpl in Hv.
    assert (v = 0 \/ v = 1 \/ v = 2) as [-> | [-> | ->]] by lia; vm_compute; lia.
Qed.

(** X7.  On a snapshot, read from the candidate of a [MIPSOL] callback or
    from the solution the model holds, whose selected arcs obey the degree
    constraints, the walk from every vertex returns a tour within [n] runs
    of its loop: it neither raises nor runs on. *)
Theorem tour_starting_at_returns (self : BranchAndCutIntegerSolver) (i : Z)
    (fuel : nat) :
  solver_wf self -> readable self = true -> degree_feasible self ->
  0 <= i < tsp_n (self_tsp self) ->
  (Z.to_nat (tsp_n (self_tsp self)) <= fuel)%nat ->
  exists t, tour_starting_at fuel self i = Some (Ok t).
Proof. intros Hwf Hread Hfeas. by apply tour_returns. Qed.

Lemma tour_starting_at_returns_witness :
  exists t, tour_starting_at 3 path_state 1 = Some (Ok t).
Proof.
  apply (tour_starting_at_returns path_state 1 3).
  - apply callback_state_wf, tsp3_wf.
  - reflexivity.
  - apply path_state_feasible.
  - simpl. lia.
  - simpl. lia.
Defined.

(** The scan of a degree-feasible candidate that starts at the source:
    the walk ends at the sink and the scan returns. *)
Lemma find_subtours_from_source pick fuel self :
  solver_wf self -> readable self = true -> degree_feasible self ->
  pick (list_to_set (vertices (tsp_n (self_tsp self)))) = 0 ->
  (Z.to_nat (tsp_n (self_tsp self)) <= fuel)%nat ->
  find_subtours pick fuel self GRB_Callback_MIPSOL = Some (Ok tt, self).
Proof.
  intros Hwf Hread Hfeas Hpick Hfuel.
  destruct (tour_from_source self Hwf Hread Hfeas fuel Hfuel) as [t Ht].
  assert (Hn : 0 < tsp_n (self_tsp self)).
  { destruct Hfeas as (Hsrc & _).
    destruct (decide (0 < tsp_n (self_tsp self))); [done|].
    unfold out_degree, vertices, range in Hsrc. rewrite seqZ_nil in Hsrc by lia. done. }
  unfold find_subtours. simpl negb. cbv iota.
  destruct fuel as [|fuel']; [lia|].
  apply find_subtours_loop_stops with
    (walk := Some 0 :: t ++ [Some (tsp_n (self_tsp self) - 1)]).
  - destruct (vertices_cons _ Hn) as [rest ->].
    rewrite list_to_set_cons, size_union_alt, size_singleton. lia.
  - by rewrite Hpick.
  - rewrite Hpick. unfold stops_scan.
    rewrite bool_decide_eq_false_2 by (destruct t; done).
    rewrite app_comm_cons, getitem_last. simpl.
    by rewrite bool_decide_eq_true_2.
Qed.

(** X8.  When the set's iterator yields the source first, the scan of a
    candidate that obeys the degree constraints ends at its first walk, the
    path from the source to the sink: it returns with the model untouched,
    whatever loops the other vertices form. *)
Theorem find_subtours_stops_at_source (pick : gset Z -> Z) (fuel : nat)
    (self : BranchAndCutIntegerSolver) :
  solver_wf self -> readable self = true -> degree_feasible self ->
  pick (list_to_set (vertices (tsp_n (self_tsp self)))) = 0 ->
  (Z.to_nat (tsp_n (self_tsp self)) <= fuel)%nat ->
  find_subtours pick fuel self GRB_Callback_MIPSOL = Some (Ok tt, self).
Proof. apply find_subtours_from_source. Qed.

Lemma find_subtours_stops_at_source_witness :
  find_subtours pick_min 3 path_state GRB_Callback_MIPSOL = Some (Ok tt, path_state).
Proof.
  apply (find_subtours_stops_at_source pick_min 3 path_state).
  - apply callback_state_wf, tsp3_wf.
  - reflexivity.
  - apply path_state_feasible.
  - vm_compute. reflexivity.
  - simpl. lia.
Defined.

(** ** The base model as a whole *)

Lemma init_constrs (tsp : TSPIntance) :
  let x := arcs tsp in
  let n := tsp_n tsp in
  m_constrs (self_m (BranchAndCutIntegerSolver_init tsp)) =
  {| lhs := tupledict_sum x (Is 0) Wild; sense := EQUAL; rhs := num 1 |}
  :: {| lhs := tupledict_sum x Wild (Is (n - 1)); sense := EQUAL; rhs := num 1 |}
  :: ((fun i => {| lhs := tupledict_sum x (Is i) Wild; sense := EQUAL;
                   rhs := tupledict_sum x Wild (Is i) |}) <$> range 1 (n - 1))
  ++ {| lhs := tupledict_sum x (Is (n - 1)) Wild; sense := EQUAL; rhs := num 0 |}
  :: {| lhs := tupledict_sum x Wild (Is 0); sense := EQUAL; rhs := num 0 |}
  :: ((fun i => {| lhs := tupledict_sum x (Is i) Wild; sense := LESS_EQUAL;
                   rhs := num 1 |}) <$> vertices n).
Proof.
  intros x n.
  change (m_constrs (self_m (BranchAndCutIntegerSolver_init tsp))) with
    (((((([] ++ [{| lhs := tupledict_sum x (Is 0) Wild;
                    sense := EQUAL; rhs := num 1 |}])
         ++ [{| lhs := tupledict_sum x Wild (Is (n - 1));
                sense := EQUAL; rhs := num 1 |}])
        ++ ((fun i => {| lhs := tupledict_sum x (Is i) Wild; sense := EQUAL;
                         rhs := tupledict_sum x Wild (Is i) |})
              <$> range 1 (n - 1)))
       ++ [{| lhs := tupledict_sum x (Is (n - 1)) Wild;
              sense := EQUAL; rhs := num 0 |}])
      ++ [{| lhs := tupledict_sum x Wild (Is 0); sense := EQUAL; rhs := num 0 |}])
     ++ ((fun i => {| lhs := tupledict_sum x (Is i) Wild; sense := LESS_EQUAL;
                      rhs := num 1 |}) <$> vertices n)).
  by rewrite <- !app_assoc.
Qed.

Lemma base_model_meaning (tsp : TSPIntance) (val : Z * Z -> Q) :
  inst_wf tsp ->
  Forall (holds val) (m_constrs (self_m (BranchAndCutIntegerSolver_init tsp)))
  <-> base_model val (tsp_n tsp).
Proof.
  intros Hwf.
  pose proof (solver_wf_init tsp Hwf) as Hs.
  set (n := tsp_n tsp).
  assert (Qeq_out : forall v, 0 <= v < n \/ n <= 0 ->
            Qeq (eval val (tupledict_sum (arcs tsp) (Is v) Wild)) (out_flow val n v))
    by (intros; by apply (eval_out (BranchAndCutIntegerSolver_init tsp))).
  assert (Qeq_in : forall v, 0 <= v < n \/ n <= 0 ->
            Qeq (eval val (tupledict_sum (arcs tsp) Wild (Is v))) (in_flow val n v))
    by (intros; by apply (eval_in (BranchAndCutIntegerSolver_init tsp))).
  rewrite init_constrs. fold n.
  rewrite !Forall_cons, Forall_app, !Forall_cons, !Forall_fmap, !Forall_forall.
  unfold base_model, holds. cbn [sense lhs rhs compose].
  split.
  - intros (H1 & H2 & H3 & H4 & H5 & H6). split_and!.
    + by rewrite <- (Qeq_out 0), H1, eval_num by lia.
    + by rewrite <- (Qeq_in (n - 1)), H2, eval_num by lia.
    + intros v Hv. rewrite <- (Qeq_out v), <- (Qeq_in v) by lia.
      apply (H3 v). unfold range. apply elem_of_seqZ. lia.
    + by rewrite <- (Qeq_out (n - 1)), H4, eval_num by lia.
    + by rewrite <- (Qeq_in 0), H5, eval_num by lia.
    + intros v Hv. rewrite <- (Qeq_out v) by lia.
      change 1%Q with (inject_Z 1). rewrite <- (eval_num val 1).
      apply (H6 v). by apply elem_of_vertices.
  - intros (H1 & H2 & H3 & H4 & H5 & H6). split_and!.
    + by rewrite (Qeq_out 0), H1, eval_num by lia.
    + by rewrite (Qeq_in (n - 1)), H2, eval_num by lia.
    + intros v Hv. unfold range in Hv. apply elem_of_seqZ in Hv.
      simpl. rewrite (Qeq_out v), (Qeq_in v) by lia. apply H3. lia.
    + by rewrite (Qeq_out (n - 1)), H4, eval_num by lia.
    + by rewrite (Qeq_in 0), H5, eval_num by lia.
    + intros v Hv%elem_of_vertices. simpl.
      rewrite (Qeq_out v), eval_num by (fold n in Hv; lia). by apply H6.
Qed.

(** X9.  The model built for a constructed instance has one variable per
    arc, [n*(n-1)] of them, and [4 + (n-2) + n] constraints (the interior
    vertices counting from zero): 6 columns and 8 rows for three
    vertices. *)
Theorem base_model_size (x y costs : list Q) (tsp : TSPIntance) :
  TSPIntance_init x y costs = Ok tsp ->
  let m := self_m (BranchAndCutIntegerSolver_init tsp) in
  let n := Z.of_nat (length x) in
  Z.of_nat (size (m_vars m)) = n * (n - 1) /\
  length (m_constrs m) = (4 + Z.to_nat (n - 2) + Z.to_nat n)%nat.
Proof.
  intros Hrun m n.
  assert (Hn : tsp_n tsp = n).
  { unfold TSPIntance_init in Hrun. destruct (negb _); [done|].
    destruct (for_each _ _ _) as [[c k]|e]; [|done]. by injection Hrun as <-. }
  split.
  - destruct (arcs_count x y costs tsp Hrun) as [_ Hsize]. fold n in Hsize.
    rewrite <- Hsize. f_equal. unfold m, BranchAndCutIntegerSolver_init. simpl.
    rewrite map_size_fmap, map_filter_id.
    + unfold arcs. by rewrite size_dom.
    + intros k c Hk. simpl. unfold arcs. apply elem_of_dom. eauto.
  - unfold m. rewrite init_constrs, Hn. simpl length.
    rewrite length_app. simpl length. rewrite !length_fmap.
    unfold vertices, range. rewrite !length_seqZ. lia.
Qed.

Lemma base_model_size_witness :
  Z.of_nat (size (m_vars (self_m (BranchAndCutIntegerSolver_init tsp3)))) = 3 * (3 - 1) /\
  length (m_constrs (self_m (BranchAndCutIntegerSolver_init tsp3))) = 8%nat.
Proof.
  apply (base_model_size coords3 coords3 costs3 tsp3).
  vm_compute. reflexivity.
Defined.

Lemma base_model_small (tsp : TSPIntance) (val : Z * Z -> Q) :
  inst_wf tsp -> tsp_n tsp <= 1 ->
  ~ Forall (holds val) (m_constrs (self_m (BranchAndCutIntegerSolver_init tsp))).
Proof.
  intros Hwf Hn Hall. apply base_model_meaning in Hall as (Hsrc & _); [|done].
  assert (Hnone : filter (fun j => j <> 0) (vertices (tsp_n tsp)) = []).
  { destruct (decide (tsp_n tsp = 1)) as [-> | Hne]; [done|].
    unfold vertices, range. by rewrite seqZ_nil by lia. }
  unfold out_flow in Hsrc. rewrite Hnone in Hsrc. by vm_compute in Hsrc.
Qed.

(** X10.  With fewer than two vertices the base model admits no
    assignment at all: the source has no arc to leave by, whatever the
    values. *)
Theorem base_model_needs_two_vertices (tsp : TSPIntance) (val : Z * Z -> Q) :
  inst_wf tsp -> tsp_n tsp <= 1 ->
  ~ Forall (holds val) (m_constrs (self_m (BranchAndCutIntegerSolver_init tsp))).
Proof. apply base_model_small. Qed.

Lemma base_model_needs_two_vertices_witness :
  ~ Forall (holds (fun _ => 1%Q))
           (m_constrs (self_m (BranchAndCutIntegerSolver_init (unit_instance 1)))).
Proof.
  apply (base_model_needs_two_vertices (unit_instance 1)).
  - apply unit_instance_ok.
  - rewrite (proj2 (unit_instance_ok 1)). simpl. lia.
Defined.

(** ** 0/1 solutions of the base model *)

Lemma gt_half_one (q : Q) : (q == 1)%Q -> gt_half q = true.
Proof. intros Hq. apply gt_half_spec. by rewrite Hq. Qed.

Lemma gt_half_zero (q : Q) : (q == 0)%Q -> gt_half q = false.
Proof.
  intros Hq. apply not_true_iff_false. rewrite gt_half_spec, Hq. by intros ?.
Qed.

(** The sum of 0/1 values counts the values above the threshold. *)
Lemma sum_over_binary {A : Type} (val : Z * Z -> Q) (f : A -> Z * Z) (l : list A) :
  binary val ->
  (sum_over val (f <$> l)
   == inject_Z (Z.of_nat (length (filter (fun a => gt_half (val (f a)) = true) l))))%Q.
Proof.
  intros Hbin. induction l as [|a l IH]; [reflexivity|].
  rewrite fmap_cons. cbn [sum_over foldr]. fold (sum_over val (f <$> l)). rewrite IH.
  destruct (Hbin (f a)) as [H0 | H1].
  - rewrite filter_cons_False by (rewrite (gt_half_zero _ H0); done).
    rewrite H0. ring.
  - rewrite filter_cons_True by (by apply gt_half_one).
    rewrite H1. simpl length. rewrite Nat2Z.inj_succ, <- Z.add_1_l, inject_Z_plus.
    reflexivity.
Qed.

Lemma out_flow_degree self (v : Z) :
  binary (snapshot self) ->
  (out_flow (snapshot self) (tsp_n (self_tsp self)) v
   == inject_Z (Z.of_nat (out_degree self v)))%Q.
Proof.
  intros Hbin. unfold out_flow, out_degree. rewrite sum_over_binary by done.
  rewrite list_filter_filter. do 3 f_equiv.
  apply list_filter_iff. intros j. unfold selb. tauto.
Qed.

Lemma in_flow_degree self (v : Z) :
  binary (snapshot self) ->
  (in_flow (snapshot self) (tsp_n (self_tsp self)) v
   == inject_Z (Z.of_nat (in_degree self v)))%Q.
Proof.
  intros Hbin. unfold in_flow, in_degree. rewrite sum_over_binary by done.
  rewrite list_filter_filter. do 3 f_equiv.
  apply list_filter_iff. intros j. unfold selb. tauto.
Qed.

Lemma inject_Z_nat_eq (a b : nat) :
  (inject_Z (Z.of_nat a) == inject_Z (Z.of_nat b))%Q -> a = b.
Proof. intros H. apply (proj1 (inject_Z_injective _ _)) in H. lia. Qed.

Lemma binary_feasible self :
  solver_wf self -> binary (snapshot self) ->
  Forall (holds (snapshot self))
         (m_constrs (self_m (BranchAndCutIntegerSolver_init (self_tsp self)))) ->
  degree_feasible self.
Proof.
  intros [Hwf _] Hbin Hall.
  apply base_model_meaning in Hall as (H1 & H2 & H3 & H4 & H5 & H6); [|done].
  unfold degree_feasible. split_and!.
  - apply inject_Z_nat_eq. by rewrite <- out_flow_degree, H1.
  - apply inject_Z_nat_eq. by rewrite <- in_flow_degree, H2.
  - intros v Hv. apply inject_Z_nat_eq.
    rewrite <- out_flow_degree, <- in_flow_degree by done. by apply H3.
  - apply inject_Z_nat_eq. by rewrite <- out_flow_degree, H4.
  - apply inject_Z_nat_eq. by rewrite <- in_flow_degree, H5.
  - intros v Hv. specialize (H6 v Hv). rewrite out_flow_degree in H6 by done.
    change 1%Q with (inject_Z 1) in H6. rewrite <- Zle_Qle in H6. lia.
Qed.

(** X11.  A 0/1 assignment that satisfies every constraint [__init__] put
    into the model selects arcs that obey the degree constraints: one arc
    out of the source, one into the sink, none into the source or out of the
    sink, as many out of as into each interior vertex, and at most one out
    of any vertex. *)
Theorem binary_solution_feasible (self : BranchAndCutIntegerSolver) :
  solver_wf self -> binary (snapshot self) ->
  Forall (holds (snapshot self))
         (m_constrs (self_m (BranchAndCutIntegerSolver_init (self_tsp self)))) ->
  degree_feasible self.
Proof. apply binary_feasible. Qed.

Lemma snapshot_of_binary (sel : list (Z * Z)) : binary (snapshot_of sel).
Proof. intros a. unfold snapshot_of. case_bool_decide; [by right | by left]. Qed.

Lemma path_state_solution :
  Forall (holds (snapshot path_state))
         (m_constrs (self_m (BranchAndCutIntegerSolver_init (self_tsp path_state)))).
Proof. repeat (apply Forall_cons; split); [..|apply Forall_nil]; by vm_compute. Qed.

Lemma binary_solution_feasible_witness : degree_feasible path_state.
Proof.
  apply (binary_solution_feasible path_state).
  - apply callback_state_wf, tsp3_wf.
  - apply snapshot_of_binary.
  - apply path_state_solution.
Defined.

(** X12.  When [optimize] returns with status [OPTIMAL] and the final
    values are a 0/1 solution of the constraints [__init__] put into the
    model, [solve] returns a Solution whose tour is a path from the source to
    the sink that follows the selected arcs, with the reported objective
    value as cost. *)
Theorem solve_decodes_solution (optimize : Optimizer) (pick : gset Z -> Z)
    (fuel : nat) (self final : BranchAndCutIntegerSolver) :
  optimized optimize pick fuel self = Ok final ->
  m_Status (self_m final) = GRB_OPTIMAL ->
  solver_wf self ->
  binary (snapshot final) ->
  Forall (holds (snapshot final))
         (m_constrs (self_m (BranchAndCutIntegerSolver_init (self_tsp self)))) ->
  (Z.to_nat (tsp_n (self_tsp self)) <= fuel)%nat ->
  exists t,
    solve optimize pick fuel self
    = Some (Ok {| sol_tour := Some 0 :: t ++ [Some (tsp_n (self_tsp self) - 1)];
                  sol_cost := m_ObjVal (self_m final) |}, final) /\
    follows final (Some 0 :: t ++ [Some (tsp_n (self_tsp self) - 1)]).
Proof.
  intros Hfinal Hst Hwf Hbin Hall Hfuel.
  pose proof (optimized_wf _ _ _ _ _ Hwf Hfinal) as Hwf'.
  pose proof (optimized_tsp _ _ _ _ _ Hfinal) as Htsp.
  rewrite <- Htsp in *.
  pose proof (binary_feasible final Hwf' Hbin Hall) as Hfeas.
  destruct (tour_from_source final Hwf' (optimal_readable final Hst) Hfeas fuel Hfuel)
    as [t Ht].
  exists t. split.
  - unfold solve. unfold optimized in Hfinal.
    destruct (optimize _ _) as [m|e]; [|done]. injection Hfinal as Hfinal.
    cbv zeta. rewrite Hfinal, Hst. simpl negb. cbv iota. by rewrite Ht.
  - by destruct (tour_walk_shape fuel final 0 _ Ht) as (_ & _ & Hchain & _).
Qed.

Lemma path_final_solution :
  Forall (holds (snapshot path_final))
         (m_constrs (self_m (BranchAndCutIntegerSolver_init tsp3))).
Proof. repeat (apply Forall_cons; split); [..|apply Forall_nil]; by vm_compute. Qed.

Lemma solve_decodes_solution_witness :
  exists t,
    solve (optimize_to 5 (snapshot_of [(0, 1); (1, 2)])) pick_min 3
          (BranchAndCutIntegerSolver_init tsp3)
    = Some (Ok {| sol_tour := Some 0 :: t ++ [Some (3 - 1)]; sol_cost := 5 |},
            path_final) /\
    follows path_final (Some 0 :: t ++ [Some (3 - 1)]).
Proof.
  apply (solve_decodes_solution (optimize_to 5 (snapshot_of [(0, 1); (1, 2)]))
           pick_min 3 (BranchAndCutIntegerSolver_init tsp3) path_final).
  - reflexivity.
  - reflexivity.
  - apply solver_wf_init, tsp3_wf.
  - apply snapshot_of_binary.
  - apply path_final_solution.
  - simpl. lia.
Defined.

(** X13.  For every tour of three or more vertices, deriving the cost from
    a constructed instance raises [KeyError]. *)
Theorem derived_cost_raises (tsp : TSPIntance) (tour : list (option Z)) :
  inst_wf tsp -> (3 <= length tour)%nat ->
  TSPSolution_init tour {| kw_cost := None; kw_instance := Some tsp |}
  = Raise KeyError.
Proof.
  intros Hwf Hlen. unfold TSPSolution_init. simpl.
  by rewrite (derived_cost_three tsp tour Hwf Hlen).
Qed.

Lemma derived_cost_raises_witness :
  TSPSolution_init [Some 2; Some 0; Some 1; Some 2]
    {| kw_cost := None; kw_instance := Some tsp3 |} = Raise KeyError.
Proof.
  apply (derived_cost_raises tsp3); [apply tsp3_wf | simpl; lia].
Defined.

(** X14.  [__add_sec_for] raises [TypeError] on every subtour with an
    element, and leaves the solver and its model as they were. *)
Theorem add_sec_for_always_raises (self : BranchAndCutIntegerSolver)
    (subtour : list (option Z)) :
  subtour <> [] -> add_sec_for self subtour = (Raise TypeError, self).
Proof. apply add_sec_for_raises. Qed.

Lemma add_sec_for_always_raises_witness :
  add_sec_for path_state [Some 0; Some 1; Some 2] = (Raise TypeError, path_state).
Proof. apply (add_sec_for_always_raises path_state). discriminate. Defined.

(** ** The scan never gets past its first walk *)

Lemma find_subtours_loop_once pick walk_fuel fuel self (remaining : gset Z) :
  (0 < size remaining)%nat ->
  find_subtours_loop pick walk_fuel (S fuel) self remaining =
  match tour_starting_at walk_fuel self (pick remaining) with
  | None => None
  | Some (Raise e) => Some (Raise e, self)
  | Some (Ok subtour) =>
      if bool_decide (subtour = [Some (pick remaining)] \/
                      last subtour = Some (Some (tsp_n (self_tsp self) - 1)))
      then Some (Ok tt, self)
      else Some (Raise TypeError, self)
  end.
Proof.
  intros Hrem. cbn [find_subtours_loop].
  rewrite (proj2 (Nat.ltb_lt _ _) Hrem).
  destruct (tour_starting_at _ _ _) as [[subtour|e]|] eqn:Hwalk; [|done|done].
  rewrite (stops_scan_walk _ _ _ _ Hwalk).
  case_bool_decide; [done|].
  rewrite add_sec_for_raises; [done|].
  intros ->. by destruct (tour_walk_shape _ _ _ _ Hwalk) as [? _].
Qed.

(** X15.  The loop of [__find_subtours] never runs its body a second
    time: the first walk decides the outcome.  A walk that is the lone start
    or ends at the sink ends the scan; any other walk ends it with the
    [TypeError] of [__add_sec_for]; a walk that raises ends it with its
    exception. *)
Theorem find_subtours_first_walk (pick : gset Z -> Z) (walk_fuel fuel : nat)
    (self : BranchAndCutIntegerSolver) (remaining : gset Z) :
  (0 < size remaining)%nat ->
  find_subtours_loop pick walk_fuel (S fuel) self remaining =
  match tour_starting_at walk_fuel self (pick remaining) with
  | None => None
  | Some (Raise e) => Some (Raise e, self)
  | Some (Ok subtour) =>
      if bool_decide (subtour = [Some (pick remaining)] \/
                      last subtour = Some (Some (tsp_n (self_tsp self) - 1)))
      then Some (Ok tt, self)
      else Some (Raise TypeError, self)
  end.
Proof. apply find_subtours_loop_once. Qed.

Lemma find_subtours_first_walk_witness :
  find_subtours_loop pick_min 6 1 two_loops_state (list_to_set (vertices 6))
  = Some (Raise TypeError, two_loops_state).
Proof.
  rewrite (find_subtours_first_walk pick_min 6 0 two_loops_state);
    [|vm_compute; lia].
  vm_compute. reflexivity.
Defined.

(** ** No snapshot to read *)

(** X16.  Outside a [MIPSOL] callback and on a model that holds no
    solution, as a solver fresh from [__init__] is, there is no snapshot:
    for a vertex of an instance with two vertices or more, [__next_vertex]
    ends with the [AttributeError] of the access to [X], which its
    [except GurobiError] does not catch, and so does the walk from the
    vertex. *)
Theorem next_vertex_without_snapshot (self : BranchAndCutIntegerSolver) (i : Z)
    (fuel : nat) :
  solver_wf self -> readable self = false ->
  0 <= i < tsp_n (self_tsp self) -> 2 <= tsp_n (self_tsp self) ->
  next_vertex self (Some i) = Raise AttributeError /\
  tour_starting_at fuel self i = Some (Raise AttributeError).
Proof.
  intros Hwf Hread Hi Hn.
  pose proof (next_vertex_unreadable self i Hwf Hread Hi Hn) as Hnext.
  split; [done|]. unfold tour_starting_at. by rewrite Hnext.
Qed.

Lemma next_vertex_without_snapshot_witness :
  next_vertex (BranchAndCutIntegerSolver_init tsp3) (Some 0) = Raise AttributeError /\
  tour_starting_at 3 (BranchAndCutIntegerSolver_init tsp3) 0
    = Some (Raise AttributeError).
Proof.
  apply (next_vertex_without_snapshot (BranchAndCutIntegerSolver_init tsp3) 0 3).
  - apply solver_wf_init, tsp3_wf.
  - reflexivity.
  - simpl. lia.
  - simpl. lia.
Defined.
